(** * Pairwise ranking server: task generation, rater sessions and scoring

    A shallow embedding of [pairwise_ranking.py].  Module-level values
    that never change after start-up (the experiment definition, the task
    list) are parameters; the mutable globals ([rater_sessions],
    [aggregate_scores]), the progress file and the random generator form an
    explicit state threaded through the request handlers.  A Python
    exception is a [Raise] result; the state reached when it is raised is
    kept, as in Python, where nothing is rolled back. *)

From Stdlib Require Import ZArith Lia.
From stdpp Require Import gmap strings list fin_maps.

Local Open Scope string_scope.

(** ** Python values and built-ins used by the program *)

Inductive exn : Type :=
| ValueError
| KeyError (key : string)
| IndexError
| TypeError
| AttributeError.

Inductive result (A : Type) : Type :=
| Ok (a : A)
| Raise (e : exn).
Arguments Ok {A} a.
Arguments Raise {A} e.

Global Instance result_ret : MRet result := λ A a, Ok a.
Global Instance result_bind : MBind result := λ A B f r,
  match r with
  | Ok a => f a
  | Raise e => Raise e
  end.

(** [d[k]] on a dict: [KeyError] when the key is missing. *)
Definition dict_get {V} (d : gmap string V) (k : string) : result V :=
  match d !! k with
  | Some v => Ok v
  | None => Raise (KeyError k)
  end.

(** [l[i]] on a list with a non-negative index. *)
Definition list_get {A} (l : list A) (i : nat) : result A :=
  match l !! i with
  | Some v => Ok v
  | None => Raise IndexError
  end.

(** [l[i]] on a list with any integer index: a negative index counts from
    the end, and an index outside [-len, len) raises [IndexError]. *)
Definition py_index {A} (l : list A) (i : Z) : result A :=
  if (0 <=? i)%Z then list_get l (Z.to_nat i)
  else if (- Z.of_nat (length l) <=? i)%Z
       then list_get l (Z.to_nat (Z.of_nat (length l) + i))
       else Raise IndexError.

(** [itertools.combinations(l, 2)]: the pairs of elements at positions
    [i < j], in lexicographic order of the positions. *)
Fixpoint combinations2 {A} (l : list A) : list (A * A) :=
  match l with
  | [] => []
  | x :: xs => map (pair x) xs ++ combinations2 xs
  end.

(** [list(range(n))] as Python integers. *)
Definition range (n : nat) : list Z := map Z.of_nat (seq 0 n).

(** ** Experiment definition and task generation *)

Record Datapoint : Type := mkDatapoint {
  dp_id : string;
  dp_input : gmap string string
}.

Record ExperimentDefinition : Type := mkExperiment {
  weights : list string;
  inputs : list Datapoint;
  outputs : gmap string (list string)
}.

Record Task : Type := mkTask {
  datapoint_id : string;
  input : gmap string string;
  left_weight : string;
  right_weight : string;
  left_output : string;
  right_output : string
}.

Section TaskSet.
Variable experiment_data : ExperimentDefinition.

(** The dict literal appended for datapoint number [i] and the pair
    [(w1, w2)]; its entries are evaluated in the order they are written. *)
Definition make_task (i : nat) (inp : Datapoint) (w1 w2 : string) : result Task :=
  o1 ← dict_get (outputs experiment_data) w1;
  lo ← list_get o1 i;
  o2 ← dict_get (outputs experiment_data) w2;
  ro ← list_get o2 i;
  mret {| datapoint_id := dp_id inp; input := dp_input inp;
          left_weight := w1; right_weight := w2;
          left_output := lo; right_output := ro |}.

(** The inner loop: one [append] per pair. *)
Fixpoint append_pairs (i : nat) (inp : Datapoint) (pairs : list (string * string))
    (acc : list Task) : result (list Task) :=
  match pairs with
  | [] => Ok acc
  | (w1, w2) :: rest =>
      t ← make_task i inp w1 w2;
      append_pairs i inp rest (acc ++ [t])
  end.

(** The outer loop over [enumerate(inputs_data)], from index [i]. *)
Fixpoint append_inputs (i : nat) (inps : list Datapoint) (acc : list Task)
    : result (list Task) :=
  match inps with
  | [] => Ok acc
  | inp :: rest =>
      acc' ← append_pairs i inp (combinations2 (weights experiment_data)) acc;
      append_inputs (S i) rest acc'
  end.

Definition build_tasks : result (list Task) :=
  append_inputs 0 (inputs experiment_data) [].
End TaskSet.

(** ** The random generator and [random.shuffle]

    The generator is an arbitrary sequence of raw draws and a cursor;
    [randbelow n] reduces the next draw into [0, n).  Every sequence of
    results the library could return is given by some sequence of draws. *)

Record Rng : Type := mkRng {
  rng_draws : nat → nat;
  rng_pos : nat
}.

Definition randbelow (g : Rng) (n : nat) : nat * Rng :=
  (rng_draws g (rng_pos g) `mod` n, mkRng (rng_draws g) (S (rng_pos g))).

(** [x[i], x[j] = x[j], x[i]] *)
Definition swap {A} (x : list A) (i j : nat) : list A :=
  match x !! i, x !! j with
  | Some a, Some b => <[j := a]> (<[i := b]> x)
  | _, _ => x
  end.

(** The loop of [random.shuffle]: [for i in reversed(range(1, len(x)))]
    draws [j = randbelow(i + 1)] and swaps [x[i]] with [x[j]]. *)
Fixpoint shuffle_loop {A} (i : nat) (x : list A) (g : Rng) : list A * Rng :=
  match i with
  | 0 => (x, g)
  | S i' => let '(j, g') := randbelow g (S i) in
            shuffle_loop i' (swap x i j) g'
  end.

Definition shuffle {A} (x : list A) (g : Rng) : list A * Rng :=
  shuffle_loop (length x - 1) x g.

(** ** Server state *)

(** A rater session as stored: [{"order": [...], "current_index": n}]. *)
Record RaterSession : Type := mkSession {
  order : list Z;
  current_index : Z
}.

(** What [rater_sessions] holds for a rater.  The progress file is read
    as it is, so an entry may be something else than a dict; [get_task]
    tests for this ("if the rater is stored as an integer"). *)
Inductive SessionValue : Type :=
| SessionDict (session : RaterSession)
| NotADict (stored : Z).

(** The content of the progress file: an object whose two fields may each
    be missing ([data.get(..., {})]). *)
Record Snapshot : Type := mkSnapshot {
  snap_rater_sessions : option (gmap string SessionValue);
  snap_aggregate_scores : option (gmap string Z)
}.

Record State : Type := mkState {
  rater_sessions : gmap string SessionValue;
  aggregate_scores : gmap string Z;
  progress_store : option Snapshot;   (* [None]: the file does not exist *)
  rng : Rng
}.

Inductive Response : Type :=
| TaskPage (rater_id : string) (task : Task)
| AllTasksCompleted
| NextTaskRedirect (rater_id : string)
| Results (scores : gmap string Z)
| Status (rater_id : string) (progress : Z) (total_tasks : nat).

(** Handlers run in a state monad with exceptions; the state reached when
    an exception is raised is the state the next request sees. *)
Definition M (A : Type) : Type := State → result A * State.

Global Instance M_ret : MRet M := λ A a st, (Ok a, st).
Global Instance M_bind : MBind M := λ A B f m st,
  match m st with
  | (Ok a, st') => f a st'
  | (Raise e, st') => (Raise e, st')
  end.

Definition get_state : M State := λ st, (Ok st, st).
Definition lift {A} (r : result A) : M A := λ st, (r, st).

Definition set_rater_sessions (rs : gmap string SessionValue) : M unit :=
  λ st, (Ok tt, mkState rs (aggregate_scores st) (progress_store st) (rng st)).
Definition set_aggregate_scores (sc : gmap string Z) : M unit :=
  λ st, (Ok tt, mkState (rater_sessions st) sc (progress_store st) (rng st)).
Definition set_progress_store (f : option Snapshot) : M unit :=
  λ st, (Ok tt, mkState (rater_sessions st) (aggregate_scores st) f (rng st)).
Definition set_rng (g : Rng) : M unit :=
  λ st, (Ok tt, mkState (rater_sessions st) (aggregate_scores st) (progress_store st) g).

Inductive Request : Type :=
| GetTask (rater_id : string)
| SubmitRating (rater_id datapoint_id left_weight right_weight
                left_selected right_selected : string)
| GetResults
| GetStatus (rater_id : string).

Section Server.
(** The module globals fixed at start-up, and the built-in [int] on
    strings ([None] when it raises [ValueError]). *)
Variable experiment_data : ExperimentDefinition.
Variable tasks : list Task.
Variable int : string → option Z.

Definition py_int (s : string) : result Z :=
  match int s with
  | Some z => Ok z
  | None => Raise ValueError
  end.

(** [{w: 0 for w in weights}] *)
Definition default_aggregate_scores : gmap string Z :=
  foldl (λ d w, <[w := 0%Z]> d) ∅ (weights experiment_data).
Definition default_rater_sessions : gmap string SessionValue := ∅.

(** [for w in weights: if w not in stored_scores: stored_scores[w] = 0] *)
Definition backfill (stored_scores : gmap string Z) : gmap string Z :=
  foldl (λ d w, match d !! w with
                | None => <[w := 0%Z]> d
                | Some _ => d
                end)
        stored_scores (weights experiment_data).

Definition load_progress (file : option Snapshot)
    : gmap string SessionValue * gmap string Z :=
  match file with
  | None => (default_rater_sessions, default_aggregate_scores)
  | Some data =>
      let stored_scores := backfill (default ∅ (snap_aggregate_scores data)) in
      (default ∅ (snap_rater_sessions data), stored_scores)
  end.

Definition save_progress (sessions : gmap string SessionValue)
    (scores : gmap string Z) : M unit :=
  set_progress_store (Some (mkSnapshot (Some sessions) (Some scores))).

(** Start of the process: the globals are bound to what
    [load_progress] returns. *)
Definition start (file : option Snapshot) (g : Rng) : State :=
  let progress_data := load_progress file in
  mkState progress_data.1 progress_data.2 file g.

(** [rater_id not in rater_sessions or
     not isinstance(rater_sessions[rater_id], dict)] *)
Definition needs_new_session (sessions : gmap string SessionValue)
    (rater_id : string) : bool :=
  match sessions !! rater_id with
  | Some (SessionDict _) => false
  | _ => true
  end.

Definition get_task (rater_id : string) : M Response :=
  st ← get_state;
  (if needs_new_session (rater_sessions st) rater_id then
     let '(order, g) := shuffle (range (length tasks)) (rng st) in
     set_rng g;;
     set_rater_sessions
       (<[rater_id := SessionDict {| order := order; current_index := 0 |}]>
          (rater_sessions st));;
     st' ← get_state;
     save_progress (rater_sessions st') (aggregate_scores st')
   else mret tt);;
  st ← get_state;
  match rater_sessions st !! rater_id with
  | Some (SessionDict session) =>
      if (Z.of_nat (length tasks) <=? current_index session)%Z
      then mret AllTasksCompleted
      else
        task_idx ← lift (py_index (order session) (current_index session));
        task ← lift (py_index tasks task_idx);
        mret (TaskPage rater_id task)
  | Some (NotADict _) => lift (Raise TypeError)
  | None => lift (Raise (KeyError rater_id))
  end.

(** [aggregate_scores[w] += d] *)
Definition add_score (w : string) (d : Z) : M unit :=
  st ← get_state;
  v ← lift (dict_get (aggregate_scores st) w);
  set_aggregate_scores (<[w := (v + d)%Z]> (aggregate_scores st)).

(** The scoring step of [submit_rating]. *)
Definition apply_vote (left_weight right_weight : string) (l_sel r_sel : Z)
    : M unit :=
  if bool_decide (l_sel = 1 ∧ r_sel = 0)%Z then
    add_score left_weight 1;; add_score right_weight (-1)
  else if bool_decide (l_sel = 0 ∧ r_sel = 1)%Z then
    add_score left_weight (-1);; add_score right_weight 1
  else if bool_decide (l_sel = 1 ∧ r_sel = 1)%Z then
    add_score left_weight 1;; add_score right_weight 1
  else if bool_decide (l_sel = 0 ∧ r_sel = 0)%Z then
    add_score left_weight (-1);; add_score right_weight (-1)
  else mret tt.

(** [rater_sessions[rater_id]["current_index"] += 1], then reading it
    back into [next_index]. *)
Definition advance (rater_id : string) : M Z :=
  st ← get_state;
  v ← lift (dict_get (rater_sessions st) rater_id);
  match v with
  | SessionDict session =>
      let next_index := (current_index session + 1)%Z in
      set_rater_sessions
        (<[rater_id := SessionDict {| order := order session;
                                      current_index := next_index |}]>
           (rater_sessions st));;
      mret next_index
  | NotADict _ => lift (Raise TypeError)
  end.

Definition submit_rating (rater_id datapoint_id left_weight right_weight
    left_selected right_selected : string) : M Response :=
  l_sel ← lift (py_int left_selected);
  r_sel ← lift (py_int right_selected);
  apply_vote left_weight right_weight l_sel r_sel;;
  next_index ← advance rater_id;
  st ← get_state;
  save_progress (rater_sessions st) (aggregate_scores st);;
  if (Z.of_nat (length tasks) <=? next_index)%Z
  then mret AllTasksCompleted
  else mret (NextTaskRedirect rater_id).

Definition get_results : M Response :=
  st ← get_state;
  mret (Results (aggregate_scores st)).

(** [rater_sessions.get(rater_id, {"current_index": 0})
      .get("current_index", 0)] *)
Definition get_status (rater_id : string) : M Response :=
  st ← get_state;
  match rater_sessions st !! rater_id with
  | None => mret (Status rater_id 0 (length tasks))
  | Some (SessionDict session) =>
      mret (Status rater_id (current_index session) (length tasks))
  | Some (NotADict _) => lift (Raise AttributeError)
  end.

Definition handle (req : Request) : M Response :=
  match req with
  | GetTask rater_id => get_task rater_id
  | SubmitRating rater_id datapoint_id left_weight right_weight
                 left_selected right_selected =>
      submit_rating rater_id datapoint_id left_weight right_weight
                    left_selected right_selected
  | GetResults => get_results
  | GetStatus rater_id => get_status rater_id
  end.

(** The state after serving a list of requests one after the other,
    whatever each of them returned. *)
Definition serve (reqs : list Request) (st : State) : State :=
  foldl (λ st req, (handle req st).2) st reqs.
End Server.

(** ** Example data *)

Module Example.
(** [int] on plain decimal strings: an optional sign and ASCII digits. *)
Fixpoint digits (s : string) (acc : Z) : option Z :=
  match s with
  | EmptyString => Some acc
  | String c rest =>
      let n := Z.of_N (Ascii.N_of_ascii c) in
      if bool_decide (48 ≤ n ≤ 57)%Z
      then digits rest (10 * acc + (n - 48))%Z
      else None
  end.

Definition nonempty_digits (s : string) : option Z :=
  match s with
  | EmptyString => None
  | _ => digits s 0
  end.

Definition int (s : string) : option Z :=
  match s with
  | EmptyString => None
  | String c rest =>
      let n := Ascii.N_of_ascii c in
      if (n =? 45)%N then Z.opp <$> nonempty_digits rest
      else if (n =? 43)%N then nonempty_digits rest
      else digits s 0
  end.

Definition experiment_data : ExperimentDefinition := {|
  weights := ["w1"; "w2"; "w3"];
  inputs := [ {| dp_id := "dp1"; dp_input := {[ "text" := "A scenic view of a mountain" ]} |};
              {| dp_id := "dp2"; dp_input := {[ "text" := "A futuristic cityscape" ]} |} ];
  outputs := {[ "w1" := ["/static/dp1_w1.jpg"; "/static/dp2_w1.jpg"];
                "w2" := ["/static/dp1_w2.jpg"; "/static/dp2_w2.jpg"];
                "w3" := ["/static/dp1_w3.jpg"; "/static/dp2_w3.jpg"] ]}
|}.

Definition tasks : list Task :=
  match build_tasks experiment_data with
  | Ok ts => ts
  | Raise _ => []
  end.

(** A generator whose [k]-th raw draw is [7 * k + 3]. *)
Definition g0 : Rng := mkRng (λ k, 7 * k + 3) 0.

(** The state of a process started without a progress file. *)
Definition st0 : State := start experiment_data None g0.

(** The state of a process started on a file written by an earlier
    format, where rater "alice" is stored as the integer 3. *)
Definition legacy_file : Snapshot :=
  mkSnapshot (Some {[ "alice" := NotADict 3 ]}) None.
Definition st_legacy : State := start experiment_data (Some legacy_file) g0.

(** The state after rater "alice" has fetched a first task. *)
Definition st1 : State := (get_task tasks "alice" st0).2.

(** Requests of raters "alice" and "bob". *)
Definition alice_votes_right : Request :=
  SubmitRating "alice" "dp1" "w1" "w2" "0" "1".
Definition alice_votes_both : Request :=
  SubmitRating "alice" "dp2" "w1" "w3" "1" "1".
Definition bob_votes_left : Request :=
  SubmitRating "bob" "dp1" "w2" "w3" "1" "0".

(** An experiment with a single candidate and no outputs at all. *)
Definition single_candidate : ExperimentDefinition := {|
  weights := ["w1"];
  inputs := [ {| dp_id := "dp1"; dp_input := ∅ |} ];
  outputs := ∅
|}.

(** The selections a rater posts for six tasks, one pair per task. *)
Definition six_choices : list (string * string) :=
  [("1", "0"); ("0", "1"); ("1", "1"); ("0", "0"); ("2", "0"); ("0", "1")].
End Example.

(** ** Vocabulary of the properties *)

Section TaskSetVocabulary.
Variable e : ExperimentDefinition.

(** Every candidate has an output for every datapoint. *)
Definition well_formed : Prop :=
  ∀ w, w ∈ weights e →
    ∃ o, outputs e !! w = Some o ∧ (length (inputs e) ≤ length o)%nat.

(** The tasks appended for one datapoint follow the pairs one by one. *)
Definition block_for (i : nat) (inp : Datapoint) (pairs : list (string * string))
    (block : list Task) : Prop :=
  Forall2 (λ p t, make_task e i inp p.1 p.2 = Ok t) pairs block.
End TaskSetVocabulary.

(** The task at position [k] of [ts] is a task for datapoint [inp] and the
    unordered pair of candidates [a], [b]. *)
Definition task_for_pair_at (ts : list Task) (k : nat) (inp : Datapoint)
    (a b : string) : Prop :=
  ∃ t, ts !! k = Some t ∧
       datapoint_id t = dp_id inp ∧ input t = dp_input inp ∧
       ((left_weight t = a ∧ right_weight t = b) ∨
        (left_weight t = b ∧ right_weight t = a)).

(** The sum of all scores across all candidates. *)
Definition sum_scores (scores : gmap string Z) : Z :=
  map_fold (λ _ v acc, (v + acc)%Z) 0%Z scores.

(** The scoring table of the specification: the deltas of candidate A
    (left) and candidate B (right). *)
Definition four_way_rule (selectedA selectedB : bool) : Z * Z :=
  match selectedA, selectedB with
  | true, false => (1, -1)
  | false, true => (-1, 1)
  | true, true => (1, 1)
  | false, false => (-1, -1)
  end%Z.

(** The deltas of a vote whose two selections were parsed to [l_sel] and
    [r_sel]: the table where both are 0 or 1, nothing elsewhere. *)
Definition vote_deltas (l_sel r_sel : Z) : Z * Z :=
  if bool_decide ((l_sel = 0 ∨ l_sel = 1) ∧ (r_sel = 0 ∨ r_sel = 1))%Z
  then four_way_rule (bool_decide (l_sel = 1%Z)) (bool_decide (r_sel = 1%Z))
  else (0, 0)%Z.

(** A candidate's score after the deltas [dl] and [dr] were given to the
    left and to the right candidate of a vote. *)
Definition score_after (left_weight right_weight : string) (dl dr : Z)
    (c : string) (v : Z) : Z :=
  (v + (if decide (c = left_weight) then dl else 0)
     + (if decide (c = right_weight) then dr else 0))%Z.

Definition with_scores (st : State) (scores : gmap string Z) : State :=
  mkState (rater_sessions st) scores (progress_store st) (rng st).

Section ServerVocabulary.
Variable tasks : list Task.
Variable int : string → option Z.

(** The sum of the deltas of the vote a request carries (none for a
    request that is not a vote, or whose selections do not parse). *)
Definition request_delta (req : Request) : Z :=
  match req with
  | SubmitRating _ _ _ _ left_selected right_selected =>
      match int left_selected, int right_selected with
      | Some l_sel, Some r_sel =>
          ((vote_deltas l_sel r_sel).1 + (vote_deltas l_sel r_sel).2)%Z
      | _, _ => 0%Z
      end
  | _ => 0%Z
  end.

(** Serving a list of requests that are all accepted: [None] as soon
    as one of them raises. *)
Fixpoint serve_accepted (reqs : list Request) (st : State) : option State :=
  match reqs with
  | [] => Some st
  | req :: rest =>
      match handle tasks int req st with
      | (Ok _, st') => serve_accepted rest st'
      | (Raise _, _) => None
      end
  end.
End ServerVocabulary.

Definition with_sessions (st : State) (sessions : gmap string SessionValue) : State :=
  mkState sessions (aggregate_scores st) (progress_store st) (rng st).

(** The position advanced by one, the order kept. *)
Definition advanced (session : RaterSession) : RaterSession :=
  {| order := order session; current_index := (current_index session + 1)%Z |}.

(** The state in which the progress file holds the sessions and scores
    of the state itself. *)
Definition persisted (st : State) : State :=
  mkState (rater_sessions st) (aggregate_scores st)
    (Some (mkSnapshot (Some (rater_sessions st)) (Some (aggregate_scores st))))
    (rng st).

Section HandlerVocabulary.
Variable tasks : list Task.

(** What [get_task] answers for a session: the task at
    [order[current_index]], or the completion page. *)
Definition task_response (rater_id : string) (session : RaterSession)
    : result Response :=
  if (Z.of_nat (length tasks) <=? current_index session)%Z
  then Ok AllTasksCompleted
  else
    task_idx ← py_index (order session) (current_index session);
    task ← py_index tasks task_idx;
    Ok (TaskPage rater_id task).

(** The state after [get_task] has created a session for [rater_id]. *)
Definition with_new_session (st : State) (rater_id : string) : State :=
  let '(order, g) := shuffle (range (length tasks)) (rng st) in
  persisted
    (mkState
       (<[rater_id := SessionDict {| order := order; current_index := 0 |}]>
          (rater_sessions st))
       (aggregate_scores st) (progress_store st) g).

(** What [submit_rating] answers after advancing to [next_index]. *)
Definition submit_response (rater_id : string) (next_index : Z) : Response :=
  if (Z.of_nat (length tasks) <=? next_index)%Z
  then AllTasksCompleted
  else NextTaskRedirect rater_id.
End HandlerVocabulary.

(** A request that is not a submission by [rater_id]. *)
Definition no_advance (rater_id : string) (req : Request) : Prop :=
  match req with
  | SubmitRating r _ _ _ _ _ => r ≠ rater_id
  | _ => True
  end.

Section RunVocabulary.
Variable tasks : list Task.
Variable int : string → option Z.

(** The request is a submission by [rater_id] that is accepted in
    state [st]. *)
Definition accepted_submission (rater_id : string) (req : Request)
    (st : State) : bool :=
  match req, (handle tasks int req st).1 with
  | SubmitRating r _ _ _ _ _, Ok _ => bool_decide (r = rater_id)
  | _, _ => false
  end.

(** The number of accepted submissions by [rater_id] while serving
    [reqs] from [st]. *)
Fixpoint count_accepted (rater_id : string) (reqs : list Request)
    (st : State) : nat :=
  match reqs with
  | [] => 0
  | req :: rest =>
      (if accepted_submission rater_id req st then 1 else 0)
      + count_accepted rater_id rest (handle tasks int req st).2
  end.
End RunVocabulary.

(** Every candidate of the experiment has a score. *)
Definition covers_weights (e : ExperimentDefinition) (scores : gmap string Z) : Prop :=
  ∀ w, w ∈ weights e → is_Some (scores !! w).

(** The states of a running process: the state after start-up on any
    progress file (or none), and the states after each request. *)
Inductive reachable (e : ExperimentDefinition) (tasks : list Task)
    (int : string → option Z) : State → Prop :=
| reachable_start file g : reachable e tasks int (start e file g)
| reachable_step req st :
    reachable e tasks int st →
    reachable e tasks int (handle tasks int req st).2.

(** The loop of [random.shuffle] with the drawn indices given as a list,
    the first one for the last position. *)
Fixpoint shuffle_by {A} (i : nat) (x : list A) (js : list nat) : list A :=
  match i, js with
  | S i', j :: js' => shuffle_by i' (swap x i j) js'
  | _, _ => x
  end.

(** The indices the loop draws from generator [g], from position [i]
    down to position 1. *)
Fixpoint drawn (i : nat) (g : Rng) : list nat :=
  match i with
  | 0 => []
  | S i' => let '(j, g') := randbelow g (S i) in j :: drawn i' g'
  end.

(** The lists of indices the loop can draw: one index in [0, k] for each
    position [k] from [i] down to 1. *)
Fixpoint choices_in_range (i : nat) (js : list nat) : Prop :=
  match i, js with
  | 0, [] => True
  | S i', j :: js' => (j ≤ i)%nat ∧ choices_in_range i' js'
  | _, _ => False
  end.


(** ** Vocabulary of the further properties *)

(** Every output the loops read exists: [outputs[w][i]] for every
    candidate [w] and every datapoint index [i]. *)
Definition outputs_complete (e : ExperimentDefinition) : Prop :=
  ∀ w i, w ∈ weights e → (i < length (inputs e))%nat →
    ∃ o out, outputs e !! w = Some o ∧ o !! i = Some out.

(** Both selections are 0 or 1: one of the four branches of the scoring
    step applies. *)
Definition recognised (l_sel r_sel : Z) : Prop :=
  ((l_sel = 0 ∨ l_sel = 1) ∧ (r_sel = 0 ∨ r_sel = 1))%Z.

(** Loading the progress file of the state gives the sessions and scores
    the state has in memory. *)
Definition in_sync (e : ExperimentDefinition) (st : State) : Prop :=
  load_progress e (progress_store st) = (rater_sessions st, aggregate_scores st).

(** The sessions [get_task] creates: the order is a permutation of all
    task indices and the position is not negative. *)
Definition sessions_valid (tasks : list Task) (st : State) : Prop :=
  ∀ rater_id session,
    rater_sessions st !! rater_id = Some (SessionDict session) →
    order session ≡ₚ range (length tasks) ∧ (0 ≤ current_index session)%Z.

(** Both candidates of every task have a score. *)
Definition tasks_scored (tasks : list Task) (st : State) : Prop :=
  ∀ t, t ∈ tasks →
    is_Some (aggregate_scores st !! left_weight t) ∧
    is_Some (aggregate_scores st !! right_weight t).

Section RaterVocabulary.
Variable tasks : list Task.
Variable int : string → option Z.

(** The request the form of a task page posts: the hidden fields
    [rater_id], [datapoint_id], [left_weight] and [right_weight] hold the
    values of the page's task, and the two selection fields what the rater
    toggled. *)
Definition form_request (rater_id : string) (task : Task)
    (left_selected right_selected : string) : Request :=
  SubmitRating rater_id (datapoint_id task) (left_weight task)
    (right_weight task) left_selected right_selected.

(** A rater who fetches a page and posts its form, once for each pair of
    selections in [choices], stopping when no task page is returned: the
    tasks shown, and the state reached. *)
Fixpoint rate (rater_id : string) (choices : list (string * string))
    (st : State) : list Task * State :=
  match choices with
  | [] => ([], st)
  | (left_selected, right_selected) :: rest =>
      match get_task tasks rater_id st with
      | (Ok (TaskPage _ task), st1) =>
          let st2 := (handle tasks int
                        (form_request rater_id task left_selected right_selected)
                        st1).2 in
          let '(shown, st3) := rate rater_id rest st2 in
          (task :: shown, st3)
      | (_, st1) => ([], st1)
      end
  end.
End RaterVocabulary.

(** * Properties *)

Local Close Scope string_scope.

(** ** Pairs of positions: [combinations2] *)

Section Combinations.
Context {A : Type}.
Implicit Types l : list A.

Lemma combinations2_double_length l :
  2 * length (combinations2 l) = length l * (length l - 1).
Proof.
  induction l as [|x xs IH]; [done|].
  cbn [combinations2 length]. rewrite length_app, length_map.
  replace (S (length xs) - 1) with (length xs) by lia.
  destruct xs as [|y ys]; [done|].
  cbn [length] in *. nia.
Qed.

Lemma length_combinations2 l :
  length (combinations2 l) = length l * (length l - 1) / 2.
Proof.
  rewrite <- combinations2_double_length.
  rewrite Nat.mul_comm, Nat.div_mul; lia.
Qed.

Lemma elem_of_combinations2 l a b :
  (a, b) ∈ combinations2 l ↔
  ∃ i j, i < j ∧ l !! i = Some a ∧ l !! j = Some b.
Proof.
  induction l as [|x xs IH]; cbn [combinations2].
  - split; [intros H; inversion H|intros (i & j & _ & H & _); done].
  - rewrite elem_of_app, list_elem_of_fmap, IH. split.
    + intros [(y & Heq & Hy)|(i & j & Hij & Hi & Hj)].
      * injection Heq as -> ->.
        apply list_elem_of_lookup in Hy as [j Hj].
        exists 0, (S j). split; [lia|done].
      * exists (S i), (S j). split; [lia|done].
    + intros (i & j & Hij & Hi & Hj).
      destruct j as [|j]; [lia|]. cbn in Hj.
      destruct i as [|i]; cbn in Hi.
      * left. injection Hi as ->. exists b. split; [done|].
        apply list_elem_of_lookup. eauto.
      * right. exists i, j. split; [lia|done].
Qed.

Lemma combinations2_fst_snd l a b :
  (a, b) ∈ combinations2 l → a ∈ l ∧ b ∈ l.
Proof.
  rewrite elem_of_combinations2. intros (i & j & _ & Hi & Hj).
  split; apply list_elem_of_lookup; eauto.
Qed.

Lemma NoDup_combinations2 l : NoDup l → NoDup (combinations2 l).
Proof.
  induction 1 as [|x xs Hx Hxs IH]; cbn [combinations2]; [constructor|].
  apply NoDup_app. split; [|split; [|done]].
  - apply NoDup_fmap_2; [|done]. intros y z Heq. by injection Heq.
  - intros [a b] Hab Hin. apply list_elem_of_fmap in Hab as (y & Heq & _).
    injection Heq as -> ->.
    apply combinations2_fst_snd in Hin as [Hin _]. done.
Qed.

(** In a list without duplicates a pair is enumerated in one direction
    only. *)
Lemma combinations2_one_direction l a b :
  NoDup l → (a, b) ∈ combinations2 l → (b, a) ∉ combinations2 l.
Proof.
  intros Hnd. rewrite !elem_of_combinations2.
  intros (i & j & Hij & Hi & Hj) (i' & j' & Hij' & Hi' & Hj').
  assert (i = j') by (eapply NoDup_lookup; eauto).
  assert (j = i') by (eapply NoDup_lookup; eauto).
  lia.
Qed.

(** Two distinct elements are enumerated as a pair, one way or the
    other. *)
Lemma combinations2_covers l a b :
  a ∈ l → b ∈ l → a ≠ b →
  (a, b) ∈ combinations2 l ∨ (b, a) ∈ combinations2 l.
Proof.
  intros [i Hi]%list_elem_of_lookup [j Hj]%list_elem_of_lookup Hne.
  rewrite !elem_of_combinations2.
  destruct (decide (i < j)); [left; eauto|].
  destruct (decide (i = j)) as [->|]; [congruence|].
  right. exists j, i. split; [lia|done].
Qed.

(** In a list without duplicates, exactly one position of the
    enumeration holds a given unordered pair of distinct elements. *)
Lemma combinations2_unique_position l a b :
  NoDup l → a ∈ l → b ∈ l → a ≠ b →
  ∃ j, (combinations2 l !! j = Some (a, b) ∨ combinations2 l !! j = Some (b, a)) ∧
       ∀ j', (combinations2 l !! j' = Some (a, b) ∨
              combinations2 l !! j' = Some (b, a)) → j' = j.
Proof.
  intros Hnd Ha Hb Hne.
  pose proof (NoDup_combinations2 l Hnd) as Hndc.
  destruct (combinations2_covers l a b Ha Hb Hne) as [Hin|Hin].
  - pose proof (combinations2_one_direction l a b Hnd Hin) as Hno.
    apply list_elem_of_lookup in Hin as [j Hj]. exists j. split; [by left|].
    intros j' [Hj'|Hj'].
    + eapply NoDup_lookup; eauto.
    + exfalso. apply Hno. apply list_elem_of_lookup. eauto.
  - pose proof (combinations2_one_direction l b a Hnd Hin) as Hno.
    apply list_elem_of_lookup in Hin as [j Hj]. exists j. split; [by right|].
    intros j' [Hj'|Hj'].
    + exfalso. apply Hno. apply list_elem_of_lookup. eauto.
    + eapply NoDup_lookup; eauto.
Qed.
End Combinations.

(** ** A list made of blocks of one size *)

Lemma length_concat_blocks {A} (blocks : list (list A)) (c : nat) :
  Forall (λ b, length b = c) blocks →
  length (concat blocks) = length blocks * c.
Proof.
  induction 1 as [|b bs Hb _ IH]; [done|].
  cbn [concat length]. rewrite length_app, IH, Hb. lia.
Qed.

Lemma lookup_concat_blocks {A} (blocks : list (list A)) (c i j : nat) :
  Forall (λ b, length b = c) blocks → j < c →
  concat blocks !! (i * c + j) = blocks !! i ≫= (λ b, b !! j).
Proof.
  intros Hall Hj. revert i.
  induction Hall as [|b bs Hb _ IH]; intros i.
  - by rewrite !lookup_nil.
  - cbn [concat]. destruct i as [|i].
    + cbn. rewrite lookup_app_l by lia. done.
    + rewrite lookup_app_r by lia.
      replace (S i * c + j - length b) with (i * c + j) by lia.
      apply IH.
Qed.

(** ** The task list *)

Section TaskSetProperties.
Variable e : ExperimentDefinition.

Lemma make_task_ok i inp w1 w2 :
  well_formed e → i < length (inputs e) → w1 ∈ weights e → w2 ∈ weights e →
  ∃ t, make_task e i inp w1 w2 = Ok t.
Proof.
  intros Hwf Hi H1 H2.
  destruct (Hwf w1 H1) as (o1 & Ho1 & Hl1).
  destruct (Hwf w2 H2) as (o2 & Ho2 & Hl2).
  destruct (lookup_lt_is_Some_2 o1 i) as [lo Hlo]; [lia|].
  destruct (lookup_lt_is_Some_2 o2 i) as [ro Hro]; [lia|].
  eexists. unfold make_task, dict_get, list_get.
  rewrite Ho1. cbn. rewrite Hlo. cbn. rewrite Ho2. cbn. rewrite Hro. cbn.
  reflexivity.
Qed.

Lemma append_pairs_ok i inp pairs acc :
  (∀ w1 w2, (w1, w2) ∈ pairs → ∃ t, make_task e i inp w1 w2 = Ok t) →
  ∃ block, append_pairs e i inp pairs acc = Ok (acc ++ block) ∧
           block_for e i inp pairs block.
Proof.
  revert acc. induction pairs as [|[w1 w2] rest IH]; intros acc Hok.
  - exists []. rewrite app_nil_r. split; [done|constructor].
  - destruct (Hok w1 w2) as [t Ht]; [left|].
    destruct (IH (acc ++ [t])) as (block & Hrun & Hblock).
    { intros ? ? ?. apply Hok. by right. }
    exists (t :: block). split.
    + cbn [append_pairs]. rewrite Ht. cbn. rewrite Hrun.
      by rewrite <- app_assoc.
    + by constructor.
Qed.

Lemma append_inputs_ok i inps acc :
  (∀ j inp w1 w2, inps !! j = Some inp →
     (w1, w2) ∈ combinations2 (weights e) →
     ∃ t, make_task e (i + j) inp w1 w2 = Ok t) →
  ∃ blocks, append_inputs e i inps acc = Ok (acc ++ concat blocks) ∧
    length blocks = length inps ∧
    ∀ j inp, inps !! j = Some inp →
      ∃ block, blocks !! j = Some block ∧
               block_for e (i + j) inp (combinations2 (weights e)) block.
Proof.
  revert i acc. induction inps as [|inp rest IH]; intros i acc Hok.
  - exists []. cbn. rewrite app_nil_r. split; [done|]. split; [done|].
    intros j inp Hj. done.
  - destruct (append_pairs_ok i inp (combinations2 (weights e)) acc)
      as (block & Hrun & Hblock).
    { intros w1 w2 Hin. specialize (Hok 0 inp w1 w2).
      rewrite Nat.add_0_r in Hok. by apply Hok. }
    destruct (IH (S i) (acc ++ block)) as (blocks & Hrest & Hlen & Hblocks).
    { intros j inp' w1 w2 Hj Hin. specialize (Hok (S j) inp' w1 w2).
      replace (S i + j) with (i + S j) by lia. by apply Hok. }
    exists (block :: blocks). split; [|split].
    + cbn [append_inputs]. rewrite Hrun. cbn. rewrite Hrest.
      by rewrite <- app_assoc.
    + cbn. by rewrite Hlen.
    + intros [|j] inp' Hj.
      * injection Hj as <-. exists block. rewrite Nat.add_0_r. done.
      * destruct (Hblocks j inp' Hj) as (block' & Hb & Hfor).
        exists block'. replace (i + S j) with (S i + j) by lia. done.
Qed.

(** Under [well_formed] the build succeeds, and its result is a
    sequence of blocks, one per datapoint in order, each following the
    enumeration of the pairs. *)
Lemma build_tasks_blocks :
  well_formed e →
  ∃ blocks, build_tasks e = Ok (concat blocks) ∧
    length blocks = length (inputs e) ∧
    ∀ i inp, inputs e !! i = Some inp →
      ∃ block, blocks !! i = Some block ∧
               block_for e i inp (combinations2 (weights e)) block.
Proof.
  intros Hwf.
  destruct (append_inputs_ok 0 (inputs e) []) as (blocks & Hrun & Hlen & Hb).
  { intros j inp w1 w2 Hj Hin.
    apply combinations2_fst_snd in Hin as [H1 H2].
    apply make_task_ok; [done| |done|done].
    cbn. by apply lookup_lt_Some in Hj. }
  exists blocks. split; [exact Hrun|]. split; [done|]. exact Hb.
Qed.

Lemma make_task_fields i inp w1 w2 t :
  make_task e i inp w1 w2 = Ok t →
  datapoint_id t = dp_id inp ∧ input t = dp_input inp ∧
  left_weight t = w1 ∧ right_weight t = w2 ∧
  (outputs e !! w1 ≫= (λ o, o !! i)) = Some (left_output t) ∧
  (outputs e !! w2 ≫= (λ o, o !! i)) = Some (right_output t).
Proof.
  unfold make_task, dict_get, list_get.
  destruct (outputs e !! w1) as [o1|]; cbn; [|done].
  destruct (o1 !! i) as [lo|]; cbn; [|done].
  destruct (outputs e !! w2) as [o2|]; cbn; [|done].
  destruct (o2 !! i) as [ro|]; cbn; [|done].
  intros [= <-]. done.
Qed.
End TaskSetProperties.

Lemma blocks_same_length (e : ExperimentDefinition) (blocks : list (list Task)) :
  length blocks = length (inputs e) →
  (∀ i inp, inputs e !! i = Some inp →
     ∃ block, blocks !! i = Some block ∧
              block_for e i inp (combinations2 (weights e)) block) →
  Forall (λ b, length b = length (combinations2 (weights e))) blocks.
Proof.
  intros Hlen Hblocks. apply Forall_lookup. intros i block Hi.
  destruct (lookup_lt_is_Some_2 (inputs e) i) as [inp Hinp].
  { rewrite <- Hlen. by apply lookup_lt_Some in Hi. }
  destruct (Hblocks i inp Hinp) as (block' & Hi' & Hfor).
  assert (block' = block) as -> by congruence.
  symmetry. exact (Forall2_length _ _ _ Hfor).
Qed.

(** C1.  For an experiment definition in which every candidate has an
    output for every datapoint, with W candidates and D datapoints, the
    build succeeds with exactly D * W * (W - 1) / 2 tasks, that is D times
    the number C = W * (W - 1) / 2 of pairs.  The task at
    position [k] is the record made for datapoint number [k / C] (C the
    number of pairs) and for two candidates at positions [ia < ib] of the
    candidate list, the earlier one on the left.  When the candidates are
    pairwise distinct, for every datapoint and every unordered pair of
    distinct candidates exactly one position of the datapoint's block
    holds a task for them.  The result is a function of the definition
    alone. *)
Theorem build_tasks_count_and_coverage (e : ExperimentDefinition) :
  let W := length (weights e) in
  let D := length (inputs e) in
  let C := W * (W - 1) / 2 in
  well_formed e →
  ∃ ts,
    build_tasks e = Ok ts ∧
    length ts = D * C ∧
    length ts = D * W * (W - 1) / 2 ∧
    (∀ k t, ts !! k = Some t →
       ∃ inp ia ib wa wb,
         inputs e !! (k / C) = Some inp ∧
         ia < ib ∧ weights e !! ia = Some wa ∧ weights e !! ib = Some wb ∧
         make_task e (k / C) inp wa wb = Ok t ∧
         left_weight t = wa ∧ right_weight t = wb) ∧
    (NoDup (weights e) →
     ∀ i inp a b,
       inputs e !! i = Some inp → a ∈ weights e → b ∈ weights e → a ≠ b →
       ∃ j, j < C ∧ task_for_pair_at ts (i * C + j) inp a b ∧
            ∀ j', j' < C → task_for_pair_at ts (i * C + j') inp a b → j' = j).
Proof.
  intros W D C Hwf.
  destruct (build_tasks_blocks e Hwf) as (blocks & Hrun & Hlen & Hblocks).
  pose proof (blocks_same_length e blocks Hlen Hblocks) as Hall.
  assert (length (combinations2 (weights e)) = C) as HC
    by apply length_combinations2.
  rewrite HC in Hall.
  assert (length (concat blocks) = D * C) as Hcount.
  { rewrite (length_concat_blocks blocks C Hall). by rewrite Hlen. }
  exists (concat blocks). split; [exact Hrun|]. split; [exact Hcount|].
  split; [|split].
  - rewrite Hcount, <- HC.
    pose proof (combinations2_double_length (weights e)) as Hdouble.
    fold W in Hdouble.
    replace (D * W * (W - 1)) with (D * length (combinations2 (weights e)) * 2)
      by nia.
    by rewrite Nat.div_mul.
  - intros k t Hk.
    assert (k < length blocks * C) as Hlt.
    { rewrite <- (length_concat_blocks blocks C Hall). by apply lookup_lt_Some in Hk. }
    assert (0 < C) as HCpos by (destruct C; lia).
    assert (k `div` C < length blocks) as Hdiv
      by (apply Nat.Div0.div_lt_upper_bound; lia).
    assert (k `mod` C < C) as Hmod by (apply Nat.mod_upper_bound; lia).
    assert (k = k `div` C * C + k `mod` C) as Hsplit.
    { rewrite (Nat.div_mod_eq k C) at 1. lia. }
    rewrite Hsplit, (lookup_concat_blocks blocks C _ _ Hall Hmod) in Hk.
    destruct (lookup_lt_is_Some_2 (inputs e) (k `div` C)) as [inp Hinp]; [lia|].
    destruct (Hblocks _ inp Hinp) as (block & Hb & Hfor).
    rewrite Hb in Hk. cbn in Hk.
    destruct (Forall2_lookup_r _ _ _ _ _ Hfor Hk) as ([wa wb] & Hp & Hmk).
    cbn in Hmk.
    assert ((wa, wb) ∈ combinations2 (weights e)) as Hin
      by (apply list_elem_of_lookup; eauto).
    apply elem_of_combinations2 in Hin as (ia & ib & Hlt' & Hia & Hib).
    destruct (make_task_fields e _ _ _ _ _ Hmk) as (_ & _ & Hl & Hr & _).
    exists inp, ia, ib, wa, wb. done.
  - intros Hnd i inp a b Hinp Ha Hb Hne.
    destruct (Hblocks i inp Hinp) as (block & Hblock & Hfor).
    destruct (combinations2_unique_position (weights e) a b Hnd Ha Hb Hne)
      as (j & Hj & Huniq).
    assert (j < C) as HjC.
    { rewrite <- HC. destruct Hj as [Hj|Hj]; by apply lookup_lt_Some in Hj. }
    exists j. split; [done|]. split.
    + assert (∃ p, combinations2 (weights e) !! j = Some p ∧
                   (p = (a, b) ∨ p = (b, a))) as (p & Hp & Hab).
      { destruct Hj as [Hj|Hj]; eauto. }
      destruct (Forall2_lookup_l _ _ _ _ _ Hfor Hp) as (t & Ht & Hmk).
      destruct (make_task_fields e _ _ _ _ _ Hmk) as (Hid & Hin & Hl & Hr & _).
      exists t. rewrite (lookup_concat_blocks blocks C _ _ Hall HjC), Hblock.
      split; [done|]. split; [done|]. split; [done|].
      destruct Hab as [->| ->]; cbn in Hl, Hr; [left|right]; done.
    + intros j' Hj' (t & Ht & _ & _ & Hlr).
      rewrite (lookup_concat_blocks blocks C _ _ Hall Hj'), Hblock in Ht.
      cbn in Ht.
      destruct (Forall2_lookup_r _ _ _ _ _ Hfor Ht) as ([wa wb] & Hp & Hmk).
      destruct (make_task_fields e _ _ _ _ _ Hmk) as (_ & _ & Hl & Hr & _).
      cbn in Hl, Hr. apply Huniq.
      destruct Hlr as [[? ?]|[? ?]]; [left|right]; rewrite Hp; congruence.
Qed.

Lemma example_well_formed : well_formed Example.experiment_data.
Proof.
  intros w Hw. cbn in Hw.
  repeat (apply elem_of_cons in Hw as [->|Hw]);
    [eexists; split; [vm_compute; reflexivity|cbn; lia] .. |].
  by apply elem_of_nil in Hw.
Qed.

Lemma example_weights_NoDup : NoDup (weights Example.experiment_data).
Proof. by apply (bool_decide_unpack _). Qed.

Lemma build_tasks_count_and_coverage_witness :
  ∃ ts, build_tasks Example.experiment_data = Ok ts ∧ length ts = 6 ∧
        ∃ j, j < 3 ∧
             task_for_pair_at ts (1 * 3 + j)
               {| dp_id := "dp2";
                  dp_input := {[ "text"%string := "A futuristic cityscape"%string ]} |}
               "w3" "w1".
Proof.
  destruct (build_tasks_count_and_coverage Example.experiment_data
              example_well_formed) as (ts & Hrun & Hlen & _ & _ & Hpairs).
  exists ts. split; [exact Hrun|]. split; [exact Hlen|].
  destruct (Hpairs example_weights_NoDup 1
              {| dp_id := "dp2";
                 dp_input := {[ "text"%string := "A futuristic cityscape"%string ]} |}
              "w3"%string "w1"%string) as (j & Hj & Htask & _).
  - reflexivity.
  - cbn. set_solver.
  - cbn. set_solver.
  - done.
  - exists j. split; [exact Hj|exact Htask].
Defined.

(** ** Scores *)

Lemma sum_scores_empty : sum_scores ∅ = 0%Z.
Proof. apply map_fold_empty. Qed.

Lemma sum_scores_insert_new (scores : gmap string Z) w v :
  scores !! w = None → sum_scores (<[w := v]> scores) = (v + sum_scores scores)%Z.
Proof.
  intros Hw. unfold sum_scores.
  rewrite map_fold_insert_L; [done| |done]. intros; lia.
Qed.

Lemma sum_scores_insert (scores : gmap string Z) w v v' :
  scores !! w = Some v →
  sum_scores (<[w := v']> scores) = (sum_scores scores - v + v')%Z.
Proof.
  intros Hw.
  rewrite <- (insert_delete_eq scores w v').
  rewrite <- (insert_delete_id scores w v Hw) at 2.
  rewrite !sum_scores_insert_new by apply lookup_delete_eq. lia.
Qed.

Lemma sum_scores_zero (scores : gmap string Z) :
  (∀ w v, scores !! w = Some v → v = 0%Z) → sum_scores scores = 0%Z.
Proof.
  induction scores as [|w v scores Hw IH] using map_ind; intros Hall.
  - apply sum_scores_empty.
  - rewrite sum_scores_insert_new by done.
    rewrite (Hall w v) by apply lookup_insert_eq.
    rewrite IH; [done|]. intros w' v' Hw'. apply (Hall w').
    rewrite lookup_insert_ne; [done|]. intros ->. congruence.
Qed.

Lemma default_aggregate_scores_zero (e : ExperimentDefinition) w v :
  default_aggregate_scores e !! w = Some v → v = 0%Z.
Proof.
  unfold default_aggregate_scores.
  assert (∀ ws (d : gmap string Z),
            (∀ v, d !! w = Some v → v = 0%Z) →
            ∀ v, foldl (λ d w, <[w := 0%Z]> d) d ws !! w = Some v → v = 0%Z)
    as Hfold.
  { induction ws as [|w' ws IH]; intros d Hd; [exact Hd|].
    cbn. apply IH. intros v'. rewrite lookup_insert.
    case_decide; [congruence|apply Hd]. }
  revert v. apply Hfold. intros v. by rewrite lookup_empty.
Qed.

Lemma sum_default_aggregate_scores (e : ExperimentDefinition) :
  sum_scores (default_aggregate_scores e) = 0%Z.
Proof. apply sum_scores_zero, default_aggregate_scores_zero. Qed.

Lemma add_score_known w d st v :
  aggregate_scores st !! w = Some v →
  add_score w d st
  = (Ok tt, with_scores st (<[w := (v + d)%Z]> (aggregate_scores st))).
Proof.
  intros Hw. unfold add_score, mbind, M_bind, get_state, lift, dict_get.
  by rewrite Hw.
Qed.

Lemma add_score_unknown w d st :
  aggregate_scores st !! w = None →
  add_score w d st = (Raise (KeyError w), st).
Proof.
  intros Hw. unfold add_score, mbind, M_bind, get_state, lift, dict_get.
  by rewrite Hw.
Qed.

Lemma apply_vote_table left_weight right_weight l_sel r_sel :
  ((l_sel = 0 ∨ l_sel = 1) ∧ (r_sel = 0 ∨ r_sel = 1))%Z →
  apply_vote left_weight right_weight l_sel r_sel
  = (add_score left_weight (vote_deltas l_sel r_sel).1;;
     add_score right_weight (vote_deltas l_sel r_sel).2).
Proof. intros [[-> | ->] [-> | ->]]; reflexivity. Qed.

Lemma apply_vote_no_branch left_weight right_weight l_sel r_sel :
  ¬ ((l_sel = 0 ∨ l_sel = 1) ∧ (r_sel = 0 ∨ r_sel = 1))%Z →
  apply_vote left_weight right_weight l_sel r_sel = mret tt.
Proof.
  intros Hout. unfold apply_vote.
  repeat case_bool_decide; try reflexivity; exfalso; apply Hout; lia.
Qed.

Lemma vote_deltas_no_branch l_sel r_sel :
  ¬ ((l_sel = 0 ∨ l_sel = 1) ∧ (r_sel = 0 ∨ r_sel = 1))%Z →
  vote_deltas l_sel r_sel = (0, 0)%Z.
Proof. intros Hout. unfold vote_deltas. by rewrite bool_decide_eq_false_2. Qed.

Lemma vote_deltas_table (selectedA selectedB : bool) :
  vote_deltas (Z.b2z selectedA) (Z.b2z selectedB)
  = four_way_rule selectedA selectedB.
Proof. by destruct selectedA, selectedB. Qed.

(** Giving [dl] to the left and then [dr] to the right candidate, both
    present in the score map. *)
Lemma add_scores_known left_weight right_weight dl dr st :
  is_Some (aggregate_scores st !! left_weight) →
  is_Some (aggregate_scores st !! right_weight) →
  ∃ scores',
    (add_score left_weight dl;; add_score right_weight dr) st
    = (Ok tt, with_scores st scores') ∧
    ∀ c, scores' !! c
         = score_after left_weight right_weight dl dr c <$> aggregate_scores st !! c.
Proof.
  intros [vl Hl] [vr Hr].
  unfold mbind, M_bind. rewrite (add_score_known _ _ _ _ Hl).
  set (st1 := with_scores st _).
  assert (∃ vr', aggregate_scores st1 !! right_weight = Some vr' ∧
            vr' = (vr + if decide (right_weight = left_weight) then dl else 0)%Z)
    as (vr' & Hr' & Hvr').
  { cbn. rewrite lookup_insert. case_decide as Heq.
    - subst. rewrite decide_True by done. eexists. split; [done|]. congruence.
    - rewrite decide_False by done. exists vr. split; [done|lia]. }
  rewrite (add_score_known _ _ _ _ Hr'). eexists. split; [reflexivity|].
  intros c. cbn. unfold score_after. rewrite !lookup_insert.
  repeat case_decide; subst; try congruence;
    rewrite ?Hl, ?Hr; cbn; f_equal; try lia.
  all: try (destruct (aggregate_scores st !! c); cbn; f_equal; lia).
  all: try (assert (vl = vr) by congruence; lia).
Qed.

(** ** One request at a time *)

Section Handlers.
Variable tasks : list Task.
Variable int : string → option Z.

Lemma get_task_existing rater_id st session :
  rater_sessions st !! rater_id = Some (SessionDict session) →
  get_task tasks rater_id st = (task_response tasks rater_id session, st).
Proof.
  intros Hs. unfold get_task, mbind, M_bind, get_state, needs_new_session.
  rewrite Hs. cbn. rewrite Hs. unfold task_response, lift, mret, M_ret.
  destruct (Z.of_nat (length tasks) <=? current_index session)%Z; [done|].
  destruct (py_index (order session) (current_index session)) as [idx|]; [|done].
  cbn. destruct (py_index tasks idx); done.
Qed.

Lemma with_new_session_lookup rater_id st :
  ∃ order,
    order = (shuffle (range (length tasks)) (rng st)).1 ∧
    rater_sessions (with_new_session tasks st rater_id) !! rater_id
    = Some (SessionDict {| order := order; current_index := 0 |}).
Proof.
  unfold with_new_session.
  destruct (shuffle (range (length tasks)) (rng st)) as [order g].
  exists order. split; [done|]. cbn. apply lookup_insert_eq.
Qed.

Lemma get_task_new rater_id st :
  needs_new_session (rater_sessions st) rater_id = true →
  get_task tasks rater_id st
  = (task_response tasks rater_id
       {| order := (shuffle (range (length tasks)) (rng st)).1;
          current_index := 0 |},
     with_new_session tasks st rater_id).
Proof.
  intros Hnew. unfold get_task, mbind, M_bind, get_state, with_new_session.
  rewrite Hnew.
  destruct (shuffle (range (length tasks)) (rng st)) as [order g]. cbn.
  rewrite lookup_insert_eq. unfold task_response, lift, mret, M_ret. cbn.
  destruct (Z.of_nat (length tasks) <=? 0)%Z; [done|].
  destruct (list_get order (Z.to_nat 0)) as [idx|]; [|done].
  cbn. destruct (py_index tasks idx); done.
Qed.

Lemma needs_new_session_dict sessions rater_id session :
  sessions !! rater_id = Some (SessionDict session) →
  needs_new_session sessions rater_id = false.
Proof. intros Hs. unfold needs_new_session. by rewrite Hs. Qed.

Lemma advance_dict rater_id st session :
  rater_sessions st !! rater_id = Some (SessionDict session) →
  advance rater_id st
  = (Ok (current_index session + 1)%Z,
     with_sessions st (<[rater_id := SessionDict (advanced session)]>
                         (rater_sessions st))).
Proof.
  intros Hs. unfold advance, mbind, M_bind, get_state, lift, dict_get.
  by rewrite Hs.
Qed.

Lemma advance_not_a_dict rater_id st stored :
  rater_sessions st !! rater_id = Some (NotADict stored) →
  advance rater_id st = (Raise TypeError, st).
Proof.
  intros Hs. unfold advance, mbind, M_bind, get_state, lift, dict_get.
  by rewrite Hs.
Qed.

Lemma advance_no_session rater_id st :
  rater_sessions st !! rater_id = None →
  advance rater_id st = (Raise (KeyError rater_id), st).
Proof.
  intros Hs. unfold advance, mbind, M_bind, get_state, lift, dict_get.
  by rewrite Hs.
Qed.

(** The scoring step touches nothing but the scores; when it returns,
    their sum has moved by the sum of the vote's deltas; when it raises,
    the exception is a [KeyError]. *)
Lemma add_score_result w d st res st' :
  add_score w d st = (res, st') →
  st' = with_scores st (aggregate_scores st') ∧
  match res with
  | Ok _ => sum_scores (aggregate_scores st')
            = (sum_scores (aggregate_scores st) + d)%Z
  | Raise e => e = KeyError w
  end.
Proof.
  destruct (aggregate_scores st !! w) as [v|] eqn:Hw.
  - rewrite (add_score_known _ _ _ _ Hw). intros [= <- <-]. split; [done|].
    cbn. rewrite (sum_scores_insert _ _ _ _ Hw). lia.
  - rewrite (add_score_unknown _ _ _ Hw). intros [= <- <-].
    by destruct st.
Qed.

Lemma add_scores_result wl wr dl dr st res st' :
  (add_score wl dl;; add_score wr dr) st = (res, st') →
  st' = with_scores st (aggregate_scores st') ∧
  match res with
  | Ok _ => sum_scores (aggregate_scores st')
            = (sum_scores (aggregate_scores st) + (dl + dr))%Z
  | Raise e => e = KeyError wl ∨ e = KeyError wr
  end.
Proof.
  unfold mbind, M_bind.
  destruct (add_score wl dl st) as [[[]|e1] st1] eqn:H1.
  - apply add_score_result in H1 as [Hst1 Hsum1]. intros H2.
    apply add_score_result in H2 as [Hst2 Hsum2]. split.
    + rewrite Hst2, Hst1. done.
    + destruct res; [lia|by right].
  - apply add_score_result in H1 as [Hst1 ->]. intros [= <- <-].
    split; [done|by left].
Qed.

Lemma apply_vote_result left_weight right_weight l_sel r_sel st res st' :
  apply_vote left_weight right_weight l_sel r_sel st = (res, st') →
  st' = with_scores st (aggregate_scores st') ∧
  match res with
  | Ok _ => sum_scores (aggregate_scores st')
            = (sum_scores (aggregate_scores st)
               + ((vote_deltas l_sel r_sel).1 + (vote_deltas l_sel r_sel).2))%Z
  | Raise e => e = KeyError left_weight ∨ e = KeyError right_weight
  end.
Proof.
  destruct (decide ((l_sel = 0 ∨ l_sel = 1) ∧ (r_sel = 0 ∨ r_sel = 1))%Z)
    as [Hin|Hout].
  - rewrite (apply_vote_table _ _ _ _ Hin). apply add_scores_result.
  - rewrite (apply_vote_no_branch _ _ _ _ Hout),
      (vote_deltas_no_branch _ _ Hout).
    intros [= <- <-]. split; [by destruct st|]. cbn. lia.
Qed.
End Handlers.

Section Submissions.
Variable tasks : list Task.
Variable int : string → option Z.

(** [submit_rating], step by step. *)
Lemma submit_rating_steps rater_id datapoint_id left_weight right_weight
    left_selected right_selected st :
  submit_rating tasks int rater_id datapoint_id left_weight right_weight
    left_selected right_selected st
  = match int left_selected with
    | None => (Raise ValueError, st)
    | Some l_sel =>
      match int right_selected with
      | None => (Raise ValueError, st)
      | Some r_sel =>
        match apply_vote left_weight right_weight l_sel r_sel st with
        | (Raise e, st1) => (Raise e, st1)
        | (Ok _, st1) =>
          match advance rater_id st1 with
          | (Raise e, st2) => (Raise e, st2)
          | (Ok next_index, st2) =>
              (Ok (submit_response tasks rater_id next_index), persisted st2)
          end
        end
      end
    end.
Proof.
  unfold submit_rating, mbind, M_bind, lift, py_int, get_state.
  destruct (int left_selected) as [l_sel|]; [|done].
  destruct (int right_selected) as [r_sel|]; [|done].
  destruct (apply_vote left_weight right_weight l_sel r_sel st)
    as [[[]|e] st1]; [|done].
  destruct (advance rater_id st1) as [[next_index|e] st2]; [|done].
  cbn. unfold submit_response.
  by destruct (Z.of_nat (length tasks) <=? next_index)%Z.
Qed.

(** What an accepted submission went through. *)
Lemma submit_rating_accepted rater_id datapoint_id left_weight right_weight
    left_selected right_selected st resp st' :
  submit_rating tasks int rater_id datapoint_id left_weight right_weight
    left_selected right_selected st = (Ok resp, st') →
  ∃ l_sel r_sel st1 session,
    int left_selected = Some l_sel ∧ int right_selected = Some r_sel ∧
    apply_vote left_weight right_weight l_sel r_sel st = (Ok tt, st1) ∧
    rater_sessions st !! rater_id = Some (SessionDict session) ∧
    resp = submit_response tasks rater_id (current_index session + 1) ∧
    st' = persisted
            (with_sessions st1
               (<[rater_id := SessionDict (advanced session)]>
                  (rater_sessions st))).
Proof.
  rewrite submit_rating_steps.
  destruct (int left_selected) as [l_sel|]; [|done].
  destruct (int right_selected) as [r_sel|]; [|done].
  destruct (apply_vote left_weight right_weight l_sel r_sel st)
    as [[[]|e] st1] eqn:Hvote; [|done].
  pose proof (apply_vote_result _ _ _ _ _ _ _ Hvote) as [Hst1 _].
  assert (rater_sessions st1 = rater_sessions st) as Hsess
    by (rewrite Hst1; done).
  destruct (rater_sessions st1 !! rater_id) as [[session|stored]|] eqn:Hs.
  - rewrite (advance_dict _ _ _ Hs). intros [= <- <-].
    exists l_sel, r_sel, st1, session. rewrite <- Hsess. done.
  - by rewrite (advance_not_a_dict _ _ _ Hs).
  - by rewrite (advance_no_session _ _ Hs).
Qed.

Lemma vote_delta_sum_cases l_sel r_sel :
  let d := ((vote_deltas l_sel r_sel).1 + (vote_deltas l_sel r_sel).2)%Z in
  (d = -2 ∨ d = 0 ∨ d = 2)%Z.
Proof.
  intros d. subst d.
  destruct (decide ((l_sel = 0 ∨ l_sel = 1) ∧ (r_sel = 0 ∨ r_sel = 1))%Z)
    as [Hin|Hout].
  - destruct Hin as [[-> | ->] [-> | ->]]; vm_compute; lia.
  - rewrite (vote_deltas_no_branch _ _ Hout). cbn. lia.
Qed.

Lemma get_task_cases rater_id st :
  (∃ session,
     rater_sessions st !! rater_id = Some (SessionDict session) ∧
     get_task tasks rater_id st
     = (task_response tasks rater_id session, st)) ∨
  (needs_new_session (rater_sessions st) rater_id = true ∧
   get_task tasks rater_id st
   = (task_response tasks rater_id
        {| order := (shuffle (range (length tasks)) (rng st)).1;
           current_index := 0 |},
      with_new_session tasks st rater_id)).
Proof.
  destruct (needs_new_session (rater_sessions st) rater_id) eqn:Hnew.
  - right. split; [done|]. by apply get_task_new.
  - left. unfold needs_new_session in Hnew.
    destruct (rater_sessions st !! rater_id) as [[session|]|] eqn:Hs;
      try done.
    exists session. split; [done|]. by apply get_task_existing.
Qed.

Lemma with_new_session_scores rater_id st :
  aggregate_scores (with_new_session tasks st rater_id) = aggregate_scores st.
Proof.
  unfold with_new_session.
  by destruct (shuffle (range (length tasks)) (rng st)).
Qed.

Lemma with_new_session_other rater_id st r :
  r ≠ rater_id →
  rater_sessions (with_new_session tasks st rater_id) !! r
  = rater_sessions st !! r.
Proof.
  intros Hne. unfold with_new_session.
  destruct (shuffle (range (length tasks)) (rng st)). cbn.
  by rewrite lookup_insert_ne.
Qed.

Lemma get_task_scores rater_id st :
  aggregate_scores (get_task tasks rater_id st).2 = aggregate_scores st.
Proof.
  destruct (get_task_cases rater_id st) as [(s & _ & ->)|[_ ->]]; [done|].
  apply with_new_session_scores.
Qed.

Lemma get_results_state st : (get_results st).2 = st.
Proof. reflexivity. Qed.

Lemma get_status_state rater_id st : (get_status tasks rater_id st).2 = st.
Proof.
  unfold get_status, mbind, M_bind, get_state.
  by destruct (rater_sessions st !! rater_id) as [[|]|].
Qed.

(** An accepted request moves the sum of the scores by the sum of the
    deltas of the vote it carries. *)
Lemma handle_accepted_sum req st resp st' :
  handle tasks int req st = (Ok resp, st') →
  sum_scores (aggregate_scores st')
  = (sum_scores (aggregate_scores st) + request_delta int req)%Z.
Proof.
  destruct req as [r|r dp lw rw ls rs| |r]; cbn [handle request_delta].
  - intros H. pose proof (get_task_scores r st) as Hsc.
    rewrite H in Hsc. cbn in Hsc. rewrite Hsc. lia.
  - intros H.
    apply submit_rating_accepted
      in H as (l & r' & st1 & s & -> & -> & Hvote & _ & _ & ->).
    apply apply_vote_result in Hvote as [_ Hsum]. cbn. exact Hsum.
  - intros H. pose proof (get_results_state st) as Hst.
    rewrite H in Hst. cbn in Hst. subst. lia.
  - intros H. pose proof (get_status_state r st) as Hst.
    rewrite H in Hst. cbn in Hst. subst. lia.
Qed.

Lemma serve_accepted_sum reqs st st' :
  serve_accepted tasks int reqs st = Some st' →
  sum_scores (aggregate_scores st')
  = (sum_scores (aggregate_scores st)
     + foldr Z.add 0 (request_delta int <$> reqs))%Z.
Proof.
  revert st. induction reqs as [|req rest IH]; intros st.
  - intros [= <-]. cbn. lia.
  - cbn [serve_accepted].
    destruct (handle tasks int req st) as [[resp|e] st1] eqn:Hreq; [|done].
    intros Hrest. rewrite (IH _ Hrest), (handle_accepted_sum _ _ _ _ Hreq).
    cbn. lia.
Qed.
End Submissions.

(** ** Votes *)

(** C2.  For a submission whose two candidates are in the score map and
    whose selections are read as the booleans [selectedA] (left) and
    [selectedB] (right), the scoring step returns, and every score entry
    is its old value plus the deltas of the four-way rule: left only gives
    the left candidate +1 and the right one -1, right only gives -1 and +1,
    both gives +1 and +1, neither gives -1 and -1; an entry of another
    candidate is unchanged.  When the submission is accepted, these are
    the scores of the state it leaves. *)
Theorem submit_rating_four_way_rule (tasks : list Task)
    (int : string → option Z) (st : State)
    (rater_id datapoint_id left_weight right_weight
     left_selected right_selected : string) (selectedA selectedB : bool) :
  is_Some (aggregate_scores st !! left_weight) →
  is_Some (aggregate_scores st !! right_weight) →
  int left_selected = Some (Z.b2z selectedA) →
  int right_selected = Some (Z.b2z selectedB) →
  ∃ scores',
    apply_vote left_weight right_weight (Z.b2z selectedA) (Z.b2z selectedB) st
    = (Ok tt, with_scores st scores') ∧
    (∀ c, scores' !! c
          = score_after left_weight right_weight
              (four_way_rule selectedA selectedB).1
              (four_way_rule selectedA selectedB).2 c
            <$> aggregate_scores st !! c) ∧
    (∀ c, c ≠ left_weight → c ≠ right_weight →
          scores' !! c = aggregate_scores st !! c) ∧
    (∀ resp st',
       submit_rating tasks int rater_id datapoint_id left_weight right_weight
         left_selected right_selected st = (Ok resp, st') →
       aggregate_scores st' = scores').
Proof.
  intros Hl Hr HselA HselB.
  assert ((Z.b2z selectedA = 0 ∨ Z.b2z selectedA = 1) ∧
          (Z.b2z selectedB = 0 ∨ Z.b2z selectedB = 1))%Z as Hin
    by (destruct selectedA, selectedB; cbn; lia).
  destruct (add_scores_known left_weight right_weight
              (four_way_rule selectedA selectedB).1
              (four_way_rule selectedA selectedB).2 st Hl Hr)
    as (scores' & Hrun & Hscores).
  assert (apply_vote left_weight right_weight (Z.b2z selectedA)
            (Z.b2z selectedB) st = (Ok tt, with_scores st scores')) as Hvote.
  { rewrite (apply_vote_table _ _ _ _ Hin), vote_deltas_table. exact Hrun. }
  exists scores'. split; [exact Hvote|]. split; [exact Hscores|]. split.
  - intros c Hcl Hcr. rewrite Hscores. unfold score_after.
    rewrite !decide_False by done.
    destruct (aggregate_scores st !! c); cbn; [f_equal; lia|done].
  - intros resp st' Hsub.
    apply submit_rating_accepted
      in Hsub as (l & r & st1 & s & Hl' & Hr' & Hvote' & _ & _ & ->).
    rewrite HselA in Hl'. rewrite HselB in Hr'.
    injection Hl' as <-. injection Hr' as <-.
    rewrite Hvote in Hvote'. by injection Hvote' as <-.
Qed.

(** C3.  A single accepted vote moves the sum of all scores by the sum of
    the deltas of the scoring table for its selections, which is -2, 0 or
    +2 and so even (whether or not the two candidates are distinct).
    After a sequence of accepted requests served from a state whose score
    map is the zero-initialised one, the sum of all scores is the sum of
    the per-vote deltas. *)
Theorem vote_sum_accounting (tasks : list Task) (int : string → option Z) :
  (∀ st rater_id datapoint_id left_weight right_weight
     left_selected right_selected resp st',
     submit_rating tasks int rater_id datapoint_id left_weight right_weight
       left_selected right_selected st = (Ok resp, st') →
     let d := (sum_scores (aggregate_scores st')
               - sum_scores (aggregate_scores st))%Z in
     d = request_delta int
           (SubmitRating rater_id datapoint_id left_weight right_weight
              left_selected right_selected) ∧
     (d = -2 ∨ d = 0 ∨ d = 2)%Z ∧ Z.even d = true) ∧
  (∀ e reqs st st',
     aggregate_scores st = default_aggregate_scores e →
     serve_accepted tasks int reqs st = Some st' →
     sum_scores (aggregate_scores st')
     = foldr Z.add 0%Z (request_delta int <$> reqs)).
Proof.
  split.
  - intros st r dp lw rw ls rs resp st' Hsub d.
    assert (d = request_delta int (SubmitRating r dp lw rw ls rs)) as Hd.
    { subst d.
      rewrite (handle_accepted_sum tasks int (SubmitRating r dp lw rw ls rs)
                 st resp st' Hsub). lia. }
    split; [exact Hd|].
    assert (d = -2 ∨ d = 0 ∨ d = 2)%Z as Hcases.
    { rewrite Hd. cbn [request_delta].
      destruct (int ls) as [l|]; [|lia]. destruct (int rs) as [r'|]; [|lia].
      apply vote_delta_sum_cases. }
    split; [exact Hcases|].
    destruct Hcases as [-> |[-> | ->]]; reflexivity.
  - intros e reqs st st' Hzero Hrun.
    rewrite (serve_accepted_sum tasks int reqs st st' Hrun), Hzero,
      sum_default_aggregate_scores. lia.
Qed.

(** C6.  For a rater with no session, the advancement step raises
    [KeyError] on the rater identifier and leaves the state as it was.  A
    submission by such a rater is never accepted: it raises, the session
    map and the progress file are as before (no session is created), and
    when the scoring step was passed, the exception is that [KeyError]. *)
Theorem advance_without_session_fails (tasks : list Task)
    (int : string → option Z) (st : State) (rater_id : string) :
  rater_sessions st !! rater_id = None →
  advance rater_id st = (Raise (KeyError rater_id), st) ∧
  ∀ datapoint_id left_weight right_weight left_selected right_selected,
    ∃ e st',
      submit_rating tasks int rater_id datapoint_id left_weight right_weight
        left_selected right_selected st = (Raise e, st') ∧
      rater_sessions st' = rater_sessions st ∧
      rater_sessions st' !! rater_id = None ∧
      progress_store st' = progress_store st ∧
      ((∃ l_sel r_sel st1,
          int left_selected = Some l_sel ∧ int right_selected = Some r_sel ∧
          apply_vote left_weight right_weight l_sel r_sel st = (Ok tt, st1)) →
       e = KeyError rater_id).
Proof.
  intros Hnone. split; [by apply advance_no_session|].
  intros dp lw rw ls rs. rewrite submit_rating_steps.
  destruct (int ls) as [l|].
  2:{ exists ValueError, st. repeat split; try done.
      intros (? & ? & ? & ? & _); done. }
  destruct (int rs) as [r|].
  2:{ exists ValueError, st. repeat split; try done.
      intros (? & ? & ? & _ & ? & _); done. }
  destruct (apply_vote lw rw l r st) as [[[]|e] st1] eqn:Hvote.
  - pose proof (apply_vote_result _ _ _ _ _ _ _ Hvote) as [Hst1 _].
    assert (rater_sessions st1 !! rater_id = None) as Hnone1
      by (rewrite Hst1; exact Hnone).
    rewrite (advance_no_session _ _ Hnone1).
    exists (KeyError rater_id), st1. rewrite Hst1. done.
  - pose proof (apply_vote_result _ _ _ _ _ _ _ Hvote) as [Hst1 _].
    exists e, st1. rewrite Hst1. repeat split; try done.
    intros (l' & r' & st1' & [= <-] & [= <-] & Hok). cbn in Hok.
    rewrite Hvote in Hok. done.
Qed.

Lemma with_scores_same st : with_scores st (aggregate_scores st) = st.
Proof. by destruct st. Qed.

Lemma score_after_no_change left_weight right_weight dl dr
    (scores scores' : gmap string Z) :
  (∀ c, scores' !! c = score_after left_weight right_weight dl dr c <$> scores !! c) →
  (∀ c v, scores !! c = Some v →
          score_after left_weight right_weight dl dr c v = v) →
  scores' = scores.
Proof.
  intros Hsc Hsame. apply map_eq. intros c. rewrite Hsc.
  destruct (scores !! c) as [v|] eqn:Hc; [|done]. cbn.
  by rewrite (Hsame c v Hc).
Qed.

Lemma four_way_rule_nonzero selectedA selectedB :
  let d := four_way_rule selectedA selectedB in
  (d.1 = 1 ∨ d.1 = -1)%Z ∧ (d.2 = 1 ∨ d.2 = -1)%Z ∧
  (selectedA = selectedB → d.1 = d.2) ∧
  (selectedA ≠ selectedB → (d.1 + d.2 = 0)%Z).
Proof. destruct selectedA, selectedB; cbn; repeat split; try lia; done. Qed.

(** The scores a vote leaves differ from the scores before it exactly
    when both selections are 0 or 1 and the two deltas do not cancel on
    one and the same candidate. *)
Lemma vote_changes_scores left_weight right_weight l_sel r_sel
    (scores scores' : gmap string Z) :
  is_Some (scores !! left_weight) → is_Some (scores !! right_weight) →
  (∀ c, scores' !! c
        = score_after left_weight right_weight
            (vote_deltas l_sel r_sel).1 (vote_deltas l_sel r_sel).2 c
          <$> scores !! c) →
  scores' ≠ scores ↔
  ((l_sel = 0 ∨ l_sel = 1) ∧ (r_sel = 0 ∨ r_sel = 1))%Z ∧
  (left_weight ≠ right_weight ∨ l_sel = r_sel).
Proof.
  intros [vl Hl] [vr Hr] Hsc.
  destruct (decide ((l_sel = 0 ∨ l_sel = 1) ∧ (r_sel = 0 ∨ r_sel = 1))%Z)
    as [Hin|Hout].
  - assert (∃ selectedA selectedB,
              l_sel = Z.b2z selectedA ∧ r_sel = Z.b2z selectedB)
      as (selA & selB & -> & ->).
    { exists (bool_decide (l_sel = 1%Z)), (bool_decide (r_sel = 1%Z)).
      destruct Hin as [[-> | ->] [-> | ->]]; done. }
    rewrite vote_deltas_table in Hsc.
    destruct (four_way_rule_nonzero selA selB) as (H1 & H2 & Heq & Hne).
    destruct (four_way_rule selA selB) as [dl dr]. cbn in *.
    destruct (decide (left_weight = right_weight)) as [<-|Hdiff].
    + destruct (decide (selA = selB)) as [->|Hsel].
      * split; [intros _; split; [done|by right]|].
        intros _ Heq'. specialize (Hsc left_weight).
        rewrite Heq', Hl in Hsc. cbn in Hsc. unfold score_after in Hsc.
        rewrite !decide_True in Hsc by done.
        specialize (Heq eq_refl). injection Hsc. lia.
      * split.
        -- intros Hchg. exfalso. apply Hchg.
           apply (score_after_no_change _ _ _ _ _ _ Hsc).
           intros c v _. unfold score_after. specialize (Hne Hsel).
           case_decide; lia.
        -- intros [_ [?|Hb]]; [done|]. exfalso. apply Hsel.
           by destruct selA, selB.
    + split; [intros _; split; [done|by left]|].
      intros _ Heq'. specialize (Hsc left_weight).
      rewrite Heq', Hl in Hsc. cbn in Hsc. unfold score_after in Hsc.
      rewrite decide_True, decide_False in Hsc by done.
      injection Hsc. lia.
  - rewrite (vote_deltas_no_branch _ _ Hout) in Hsc. cbn in Hsc. split.
    + intros Hchg. exfalso. apply Hchg.
      apply (score_after_no_change _ _ _ _ _ _ Hsc).
      intros c v _. unfold score_after. repeat case_decide; lia.
    + intros [? _]. done.
Qed.

(** C9, as stated: every submission by a rater without a session, on
    known candidates, is rejected with the scores changed.  It fails for
    the selections "2" and "0": no branch of the scoring step applies, the
    request raises [KeyError] and the scores are as before.  (So it does
    for one candidate on both sides with the selections "1" and "0",
    where the two deltas cancel; see [vote_changes_scores].) *)
Lemma rejected_submission_scores_changed_counterexample :
  ¬ (∀ (tasks : list Task) (int : string → option Z) (st : State)
       (rater_id datapoint_id left_weight right_weight
        left_selected right_selected : string),
       rater_sessions st !! rater_id = None →
       is_Some (aggregate_scores st !! left_weight) →
       is_Some (aggregate_scores st !! right_weight) →
       ∃ e st',
         submit_rating tasks int rater_id datapoint_id left_weight
           right_weight left_selected right_selected st = (Raise e, st') ∧
         aggregate_scores st' ≠ aggregate_scores st).
Proof.
  intros Hclaim.
  destruct (Hclaim Example.tasks Example.int Example.st0
              "ghost" "dp1" "w1" "w2" "2" "0"%string)
    as (e & st' & Hrun & Hchanged).
  - reflexivity.
  - by eexists.
  - by eexists.
  - apply Hchanged. vm_compute in Hrun. by injection Hrun as <- <-.
Qed.

(** C9, amended.  For a submission by a rater without a session, on known
    candidates and with selections that parse, the request is rejected
    with [KeyError] on the rater identifier after the scoring step has
    run: the state it leaves differs from the state before it in the
    scores only, every score being its old value plus the deltas of the
    vote (nothing is rolled back, nothing is written to the progress
    file).  The scores differ from their values before the request
    exactly when both selections are 0 or 1 and either the two candidates
    are distinct or the two selections are equal. *)
Theorem rejected_submission_keeps_vote (tasks : list Task)
    (int : string → option Z) (st : State)
    (rater_id datapoint_id left_weight right_weight
     left_selected right_selected : string) (l_sel r_sel : Z) :
  rater_sessions st !! rater_id = None →
  is_Some (aggregate_scores st !! left_weight) →
  is_Some (aggregate_scores st !! right_weight) →
  int left_selected = Some l_sel →
  int right_selected = Some r_sel →
  ∃ scores',
    submit_rating tasks int rater_id datapoint_id left_weight right_weight
      left_selected right_selected st
    = (Raise (KeyError rater_id), with_scores st scores') ∧
    (∀ c, scores' !! c
          = score_after left_weight right_weight
              (vote_deltas l_sel r_sel).1 (vote_deltas l_sel r_sel).2 c
            <$> aggregate_scores st !! c) ∧
    (scores' ≠ aggregate_scores st ↔
     ((l_sel = 0 ∨ l_sel = 1) ∧ (r_sel = 0 ∨ r_sel = 1))%Z ∧
     (left_weight ≠ right_weight ∨ l_sel = r_sel)).
Proof.
  intros Hnone Hl Hr Hls Hrs.
  assert (∃ scores',
            apply_vote left_weight right_weight l_sel r_sel st
            = (Ok tt, with_scores st scores') ∧
            ∀ c, scores' !! c
                 = score_after left_weight right_weight
                     (vote_deltas l_sel r_sel).1 (vote_deltas l_sel r_sel).2 c
                   <$> aggregate_scores st !! c) as (scores' & Hvote & Hsc).
  { destruct (decide ((l_sel = 0 ∨ l_sel = 1) ∧ (r_sel = 0 ∨ r_sel = 1))%Z)
      as [Hin|Hout].
    - rewrite (apply_vote_table _ _ _ _ Hin). by apply add_scores_known.
    - exists (aggregate_scores st).
      rewrite (apply_vote_no_branch _ _ _ _ Hout),
        (vote_deltas_no_branch _ _ Hout), with_scores_same.
      split; [done|]. intros c. unfold score_after. cbn.
      destruct (aggregate_scores st !! c); cbn; [|done].
      f_equal. repeat case_decide; lia. }
  exists scores'. split; [|split; [exact Hsc|]].
  - rewrite submit_rating_steps, Hls, Hrs, Hvote.
    by rewrite advance_no_session.
  - by apply vote_changes_scores.
Qed.

(** C10.  For a submission by a rater who has a session, whose selections
    parse to a pair outside {0,1} x {0,1}, no branch of the scoring step
    applies: the request is accepted, the scores are unchanged, the
    rater's position is advanced by exactly one, and the progress file
    holds the sessions and scores of the state it leaves. *)
Theorem unrecognised_selection_still_advances (tasks : list Task)
    (int : string → option Z) (st : State)
    (rater_id datapoint_id left_weight right_weight
     left_selected right_selected : string) (l_sel r_sel : Z)
    (session : RaterSession) :
  int left_selected = Some l_sel →
  int right_selected = Some r_sel →
  ¬ ((l_sel = 0 ∨ l_sel = 1) ∧ (r_sel = 0 ∨ r_sel = 1))%Z →
  rater_sessions st !! rater_id = Some (SessionDict session) →
  ∃ st',
    submit_rating tasks int rater_id datapoint_id left_weight right_weight
      left_selected right_selected st
    = (Ok (submit_response tasks rater_id (current_index session + 1)), st') ∧
    apply_vote left_weight right_weight l_sel r_sel st = (Ok tt, st) ∧
    aggregate_scores st' = aggregate_scores st ∧
    rater_sessions st'
    = <[rater_id := SessionDict {| order := order session;
                                   current_index := current_index session + 1 |}]>
        (rater_sessions st) ∧
    progress_store st'
    = Some (mkSnapshot (Some (rater_sessions st')) (Some (aggregate_scores st'))) ∧
    rng st' = rng st.
Proof.
  intros Hls Hrs Hout Hs. eexists. split; [|split].
  - rewrite submit_rating_steps, Hls, Hrs, (apply_vote_no_branch _ _ _ _ Hout).
    cbn. rewrite (advance_dict _ _ _ Hs). reflexivity.
  - by rewrite (apply_vote_no_branch _ _ _ _ Hout).
  - done.
Qed.

(** ** Shuffling *)

Lemma swap_Permutation {A} (x : list A) (i j : nat) : swap x i j ≡ₚ x.
Proof.
  unfold swap.
  destruct (x !! i) as [a|] eqn:Hi; [|done].
  destruct (x !! j) as [b|] eqn:Hj; [|done].
  by apply Permutation_insert_swap.
Qed.

Lemma shuffle_loop_Permutation {A} (i : nat) (x : list A) (g : Rng) :
  (shuffle_loop i x g).1 ≡ₚ x.
Proof.
  revert x g. induction i as [|i IH]; intros x g; [done|].
  cbn [shuffle_loop]. destruct (randbelow g (S (S i))) as [j g'].
  rewrite IH. apply swap_Permutation.
Qed.

Lemma shuffle_Permutation {A} (x : list A) (g : Rng) : (shuffle x g).1 ≡ₚ x.
Proof. apply shuffle_loop_Permutation. Qed.

Lemma NoDup_range n : NoDup (range n).
Proof.
  unfold range. apply NoDup_fmap_2; [apply Nat2Z.inj'|apply NoDup_seq].
Qed.

Lemma elem_of_range n (k : Z) : k ∈ range n ↔ (0 ≤ k < Z.of_nat n)%Z.
Proof.
  unfold range. rewrite list_elem_of_fmap. split.
  - intros (i & -> & Hi). apply elem_of_seq in Hi. lia.
  - intros Hk. exists (Z.to_nat k). split; [lia|]. apply elem_of_seq. lia.
Qed.

Lemma py_index_in_range {A} (l : list A) (k : Z) :
  (0 ≤ k < Z.of_nat (length l))%Z →
  ∃ v, l !! Z.to_nat k = Some v ∧ py_index l k = Ok v.
Proof.
  intros Hk. destruct (lookup_lt_is_Some_2 l (Z.to_nat k)) as [v Hv]; [lia|].
  exists v. split; [done|]. unfold py_index, list_get.
  rewrite (proj2 (Z.leb_le 0 k)) by lia. by rewrite Hv.
Qed.

(** *** Every permutation comes from exactly one list of drawn indices *)

Section ShuffleChoices.
Context {A : Type}.
Implicit Types x p : list A.

Lemma length_swap x i j : length (swap x i j) = length x.
Proof.
  unfold swap. destruct (x !! i), (x !! j); try done.
  by rewrite !length_insert.
Qed.

Lemma swap_lookup_above x i j k :
  j ≤ i → i < k → swap x i j !! k = x !! k.
Proof.
  intros Hj Hk. unfold swap. destruct (x !! i), (x !! j); try done.
  rewrite !list_lookup_insert_ne by lia. done.
Qed.

Lemma swap_lookup_last x i j b :
  i < length x → x !! j = Some b → swap x i j !! i = Some b.
Proof.
  intros Hi Hj. unfold swap.
  destruct (lookup_lt_is_Some_2 x i Hi) as [a Ha]. rewrite Ha, Hj.
  destruct (decide (i = j)) as [->|Hne].
  - rewrite list_lookup_insert_eq by (rewrite length_insert; lia). congruence.
  - rewrite list_lookup_insert_ne by lia.
    by rewrite list_lookup_insert_eq by lia.
Qed.

Lemma shuffle_by_lookup_above i x js k :
  choices_in_range i js → i < k → shuffle_by i x js !! k = x !! k.
Proof.
  revert x js. induction i as [|i IH]; intros x js Hjs Hk.
  - by destruct js.
  - destruct js as [|j js]; [done|]. destruct Hjs as [Hj Hjs].
    cbn [shuffle_by]. rewrite IH by (done || lia).
    apply swap_lookup_above; lia.
Qed.

Lemma shuffle_loop_drawn i x g :
  (shuffle_loop i x g).1 = shuffle_by i x (drawn i g).
Proof.
  revert x g. induction i as [|i IH]; intros x g; [done|].
  cbn [shuffle_loop drawn]. destruct (randbelow g (S (S i))) as [j g'].
  apply IH.
Qed.

(** With the elements pairwise distinct, a list [p] that has the elements
    of [x] and agrees with [x] above position [i] is reached from [x] by
    exactly one list of drawn indices. *)
Lemma shuffle_by_target i x p :
  NoDup x → x ≡ₚ p → i = 0 ∨ i < length x →
  (∀ k, i < k → x !! k = p !! k) →
  ∃ js, choices_in_range i js ∧ shuffle_by i x js = p ∧
        ∀ js', choices_in_range i js' → shuffle_by i x js' = p → js' = js.
Proof.
  revert x. induction i as [|i IH]; intros x Hnd Hperm Hi Hagree.
  - exists []. split; [done|]. split.
    + cbn. apply list_eq. intros [|k]; [|apply Hagree; lia].
      destruct (x !! 0) as [a|] eqn:Ha.
      * assert (a ∈ p) as [m Hm]%list_elem_of_lookup.
        { rewrite <- Hperm. apply list_elem_of_lookup. eauto. }
        destruct m as [|m]; [done|].
        rewrite <- Hagree in Hm by lia.
        pose proof (NoDup_lookup _ _ _ _ Hnd Ha Hm). lia.
      * apply lookup_ge_None in Ha. symmetry. apply lookup_ge_None.
        rewrite <- (Permutation_length Hperm). done.
    + intros [|j js'] Hjs' _; done.
  - destruct Hi as [Hi|Hi]; [done|].
    assert (NoDup p) as Hndp by (by rewrite <- Hperm).
    destruct (lookup_lt_is_Some_2 p (S i)) as [b Hb].
    { by rewrite <- (Permutation_length Hperm). }
    assert (b ∈ x) as [j Hj]%list_elem_of_lookup.
    { rewrite Hperm. apply list_elem_of_lookup. eauto. }
    assert (j ≤ S i) as Hle.
    { destruct (decide (j ≤ S i)) as [|Hgt]; [done|].
      rewrite Hagree in Hj by lia.
      pose proof (NoDup_lookup _ _ _ _ Hndp Hb Hj). lia. }
    destruct (IH (swap x (S i) j)) as (js & Hjs & Hrun & Huniq).
    + by rewrite swap_Permutation.
    + by rewrite swap_Permutation.
    + right. rewrite length_swap. lia.
    + intros k Hk. destruct (decide (k = S i)) as [->|Hne].
      * rewrite Hb. by apply swap_lookup_last.
      * rewrite swap_lookup_above by lia. apply Hagree. lia.
    + exists (j :: js). split; [done|]. split; [done|].
      intros [|j' js'] Hjs'; [done|]. destruct Hjs' as [Hj' Hjs'].
      cbn [shuffle_by]. intros Hrun'.
      assert (j' = j) as ->.
      { destruct (lookup_lt_is_Some_2 x j') as [b' Hb']; [lia|].
        pose proof (shuffle_by_lookup_above i (swap x (S i) j') js' (S i)
                      Hjs' ltac:(lia)) as Hlast.
        rewrite Hrun', Hb, (swap_lookup_last x (S i) j' b' Hi Hb') in Hlast.
        injection Hlast as ->.
        by apply (NoDup_lookup x j' j b'). }
      f_equal. by apply Huniq.
Qed.

Lemma shuffle_choices_bijective x p :
  NoDup x → x ≡ₚ p →
  ∃ js, choices_in_range (length x - 1) js ∧
        shuffle_by (length x - 1) x js = p ∧
        ∀ js', choices_in_range (length x - 1) js' →
               shuffle_by (length x - 1) x js' = p → js' = js.
Proof.
  intros Hnd Hperm. apply shuffle_by_target; [done|done| |].
  - destruct x; cbn; [by left|right; lia].
  - intros k Hk. rewrite !(proj2 (lookup_ge_None _ _)); [done| |lia].
    rewrite <- (Permutation_length Hperm). lia.
Qed.
End ShuffleChoices.

Lemma drawn_in_range i g : choices_in_range i (drawn i g).
Proof.
  revert g. induction i as [|i IH]; intros g; [done|].
  cbn [drawn randbelow]. split; [|apply IH].
  pose proof (Nat.mod_upper_bound (rng_draws g (rng_pos g)) (S (S i))). lia.
Qed.

(** Every list of indices in range is the list some generator draws. *)
Lemma drawn_from_choices i js f pos :
  choices_in_range i js →
  (∀ k j, js !! k = Some j → f (pos + k) = j) →
  drawn i (mkRng f pos) = js.
Proof.
  revert js pos. induction i as [|i IH]; intros js pos Hjs Hf.
  - by destruct js.
  - destruct js as [|j js]; [done|]. destruct Hjs as [Hj Hjs].
    cbn [drawn randbelow rng_draws rng_pos]. f_equal.
    + specialize (Hf 0 j eq_refl). rewrite Nat.add_0_r in Hf. rewrite Hf.
      apply Nat.mod_small. lia.
    + apply IH; [done|]. intros k j' Hk.
      specialize (Hf (S k) j' Hk). by rewrite <- Nat.add_succ_comm in Hf.
Qed.

Lemma shuffle_reaches_every_permutation {A} (x p : list A) :
  NoDup x → x ≡ₚ p → ∃ g, (shuffle x g).1 = p.
Proof.
  intros Hnd Hperm.
  destruct (shuffle_choices_bijective x p Hnd Hperm) as (js & Hjs & Hrun & _).
  exists (mkRng (λ k, default 0 (js !! k)) 0).
  unfold shuffle. rewrite shuffle_loop_drawn.
  rewrite (drawn_from_choices _ js); [done|done|].
  intros k j Hk. cbn. by rewrite Hk.
Qed.

(** ** Sessions *)

Section Sessions.
Variable tasks : list Task.
Variable int : string → option Z.

Lemma submit_rating_rejected rater_id datapoint_id left_weight right_weight
    left_selected right_selected st e st' :
  submit_rating tasks int rater_id datapoint_id left_weight right_weight
    left_selected right_selected st = (Raise e, st') →
  st' = with_scores st (aggregate_scores st').
Proof.
  rewrite submit_rating_steps.
  destruct (int left_selected) as [l_sel|].
  2:{ intros [= <- <-]. symmetry. apply with_scores_same. }
  destruct (int right_selected) as [r_sel|].
  2:{ intros [= <- <-]. symmetry. apply with_scores_same. }
  destruct (apply_vote left_weight right_weight l_sel r_sel st)
    as [[[]|e1] st1] eqn:Hvote;
    pose proof (apply_vote_result _ _ _ _ _ _ _ Hvote) as [Hst1 _].
  - destruct (rater_sessions st1 !! rater_id) as [[session|stored]|] eqn:Hs.
    + by rewrite (advance_dict _ _ _ Hs).
    + rewrite (advance_not_a_dict _ _ _ Hs). by intros [= <- <-].
    + rewrite (advance_no_session _ _ Hs). by intros [= <- <-].
  - by intros [= <- <-].
Qed.

(** One request leaves a session as it is, except an accepted
    submission by its rater, which advances its position by one. *)
Lemma handle_session_step req st rater_id session :
  rater_sessions st !! rater_id = Some (SessionDict session) →
  rater_sessions (handle tasks int req st).2 !! rater_id
  = Some (SessionDict (if accepted_submission tasks int rater_id req st
                       then advanced session else session)).
Proof.
  intros Hs. destruct req as [r|r dp lw rw ls rs| |r].
  - cbn. destruct (get_task_cases tasks r st) as [(s & _ & ->)|[Hnew ->]];
      [done|].
    cbn. rewrite with_new_session_other; [done|].
    intros ->. by rewrite (needs_new_session_dict _ _ _ Hs) in Hnew.
  - unfold accepted_submission. cbn [handle].
    destruct (submit_rating tasks int r dp lw rw ls rs st)
      as [[resp|e] st'] eqn:Hsub; cbn [fst snd].
    + apply submit_rating_accepted
        in Hsub as (l & r' & st1 & s & _ & _ & _ & Hs' & _ & ->).
      cbn. case_bool_decide as Hr.
      * subst. rewrite lookup_insert_eq. congruence.
      * by rewrite lookup_insert_ne.
    + apply submit_rating_rejected in Hsub. by rewrite Hsub.
  - done.
  - cbn. by rewrite get_status_state.
Qed.

Lemma no_advance_not_accepted rater_id req st :
  no_advance rater_id req → accepted_submission tasks int rater_id req st = false.
Proof.
  destruct req as [r|r dp lw rw ls rs| |r]; try done.
  cbn [no_advance]. intros Hne. unfold accepted_submission.
  destruct (handle _ _ _ _).1; [|done]. by apply bool_decide_eq_false_2.
Qed.

Lemma serve_keeps_session reqs st rater_id session :
  Forall (no_advance rater_id) reqs →
  rater_sessions st !! rater_id = Some (SessionDict session) →
  rater_sessions (serve tasks int reqs st) !! rater_id
  = Some (SessionDict session).
Proof.
  intros Hreqs. revert st. induction Hreqs as [|req rest Hreq _ IH];
    intros st Hs; [done|].
  cbn. apply IH. rewrite (handle_session_step _ _ _ _ Hs).
  by rewrite (no_advance_not_accepted _ _ _ Hreq).
Qed.

Lemma serve_advances_session reqs st rater_id session :
  rater_sessions st !! rater_id = Some (SessionDict session) →
  rater_sessions (serve tasks int reqs st) !! rater_id
  = Some (SessionDict
            {| order := order session;
               current_index :=
                 current_index session
                 + Z.of_nat (count_accepted tasks int rater_id reqs st) |}).
Proof.
  revert st session. induction reqs as [|req rest IH]; intros st session Hs.
  - cbn. rewrite Hs, Z.add_0_r. by destruct session.
  - cbn [serve foldl count_accepted].
    pose proof (handle_session_step req st rater_id session Hs) as Hstep.
    unfold serve in IH. rewrite (IH _ _ Hstep).
    destruct (accepted_submission tasks int rater_id req st); cbn;
      do 3 f_equal; lia.
Qed.
End Sessions.

(** C4.  When [get_task] is called for a rater with no session, it
    creates one: the order is the shuffle of [0, len(tasks)), a
    permutation of these indices with no duplicate and no omission, and
    the position is 0.  The state it returns in holds the new session both
    in memory and in the progress file, and the answer is the task at the
    first index of the order (the completion page when there is no task
    at all).  The order is what the loop of the shuffle makes of the
    indices it draws from the generator, and every permutation of
    [0, len(tasks)) is made of exactly one list of drawn indices in
    range: indices drawn uniformly give each permutation equally often. *)
Theorem get_task_creates_session (tasks : list Task) (st : State)
    (rater_id : string) :
  rater_sessions st !! rater_id = None →
  ∃ shuffled g resp st',
    let sessions' :=
      <[rater_id := SessionDict {| order := shuffled; current_index := 0 |}]>
        (rater_sessions st) in
    shuffle (range (length tasks)) (rng st) = (shuffled, g) ∧
    shuffled ≡ₚ range (length tasks) ∧
    NoDup shuffled ∧
    (∀ k : Z, k ∈ shuffled ↔ (0 ≤ k < Z.of_nat (length tasks))%Z) ∧
    get_task tasks rater_id st = (Ok resp, st') ∧
    st' = mkState sessions' (aggregate_scores st)
            (Some (mkSnapshot (Some sessions') (Some (aggregate_scores st)))) g ∧
    (tasks = [] → resp = AllTasksCompleted) ∧
    (tasks ≠ [] →
     ∃ task_idx task,
       shuffled !! 0 = Some task_idx ∧ tasks !! Z.to_nat task_idx = Some task ∧
       resp = TaskPage rater_id task) ∧
    shuffled = shuffle_by (length tasks - 1) (range (length tasks))
                 (drawn (length tasks - 1) (rng st)) ∧
    choices_in_range (length tasks - 1) (drawn (length tasks - 1) (rng st)) ∧
    (∀ p, range (length tasks) ≡ₚ p →
       ∃ js, choices_in_range (length tasks - 1) js ∧
             shuffle_by (length tasks - 1) (range (length tasks)) js = p ∧
             ∀ js', choices_in_range (length tasks - 1) js' →
                    shuffle_by (length tasks - 1) (range (length tasks)) js' = p →
                    js' = js).
Proof.
  intros Hnone.
  assert (needs_new_session (rater_sessions st) rater_id = true) as Hnew
    by (unfold needs_new_session; by rewrite Hnone).
  pose proof (get_task_new tasks rater_id st Hnew) as Hrun.
  pose proof (shuffle_Permutation (range (length tasks)) (rng st)) as Hperm.
  unfold with_new_session in Hrun.
  destruct (shuffle (range (length tasks)) (rng st)) as [shuffled g] eqn:Hsh.
  cbn [fst] in Hrun, Hperm.
  assert (∀ k : Z, k ∈ shuffled ↔ (0 ≤ k < Z.of_nat (length tasks))%Z) as Hin.
  { intros k. by rewrite Hperm, elem_of_range. }
  assert (∃ resp,
            task_response tasks rater_id {| order := shuffled; current_index := 0 |}
            = Ok resp ∧
            (tasks = [] → resp = AllTasksCompleted) ∧
            (tasks ≠ [] →
             ∃ task_idx task,
               shuffled !! 0 = Some task_idx ∧
               tasks !! Z.to_nat task_idx = Some task ∧
               resp = TaskPage rater_id task)) as (resp & Hresp & Hempty & Hfirst).
  { unfold task_response. cbn [current_index order].
    destruct tasks as [|t ts] eqn:Htasks.
    - exists AllTasksCompleted. done.
    - rewrite <- Htasks in *.
      assert (0 < length tasks) as Hlen by (rewrite Htasks; cbn; lia).
      rewrite (proj2 (Z.leb_gt _ _)) by lia.
      destruct (lookup_lt_is_Some_2 shuffled 0) as [idx Hidx].
      { rewrite (Permutation_length Hperm). unfold range.
        by rewrite length_fmap, length_seq. }
      assert (0 ≤ idx < Z.of_nat (length tasks))%Z as Hrange.
      { apply Hin. apply list_elem_of_lookup. eauto. }
      destruct (py_index_in_range tasks idx Hrange) as (task & Htask & Hget).
      exists (TaskPage rater_id task). split; [|split].
      + assert (py_index shuffled 0 = Ok idx) as ->
          by (unfold py_index, list_get; by rewrite Z.leb_refl, Z2Nat.inj_0, Hidx).
        cbn. by rewrite Hget.
      + intros ?. subst. done.
      + intros _. exists idx, task. done. }
  exists shuffled, g, resp, (with_new_session tasks st rater_id). cbn zeta.
  split; [done|]. split; [done|]. split.
  { rewrite Hperm. apply NoDup_range. }
  split; [done|]. split.
  { rewrite (get_task_new tasks rater_id st Hnew). rewrite Hsh. cbn [fst].
    by rewrite Hresp. }
  split; [unfold with_new_session; by rewrite Hsh|].
  split; [done|]. split; [done|].
  assert (length (range (length tasks)) = length tasks) as Hlen
    by (unfold range; by rewrite length_fmap, length_seq).
  split; [|split].
  - unfold shuffle in Hsh. rewrite Hlen in Hsh.
    rewrite <- shuffle_loop_drawn, Hsh. done.
  - apply drawn_in_range.
  - intros p Hp.
    pose proof (shuffle_choices_bijective (range (length tasks)) p
                  (NoDup_range _) Hp) as Hbij.
    rewrite Hlen in Hbij. exact Hbij.
Qed.

(** C5.  A call to [get_task] for a rater, any requests that are not
    submissions by that rater, and a second call: the second call gives
    the answer of the first one and leaves the state as it found it; the
    rater's session (order and position) is the one the first call
    returned in. *)
Theorem get_task_repeatable (tasks : list Task) (int : string → option Z)
    (st : State) (rater_id : string) (reqs : list Request) :
  Forall (no_advance rater_id) reqs →
  let first := get_task tasks rater_id st in
  let later := serve tasks int reqs first.2 in
  let second := get_task tasks rater_id later in
  second.1 = first.1 ∧ second.2 = later ∧
  rater_sessions later !! rater_id = rater_sessions first.2 !! rater_id.
Proof.
  intros Hreqs first later second.
  assert (∃ session,
            rater_sessions first.2 !! rater_id = Some (SessionDict session) ∧
            first.1 = task_response tasks rater_id session)
    as (session & Hs & Hfirst).
  { subst first.
    destruct (get_task_cases tasks rater_id st) as [(s & Hs & ->)|[_ ->]].
    - exists s. done.
    - destruct (with_new_session_lookup tasks rater_id st) as (o & -> & Ho).
      eexists. split; [exact Ho|done]. }
  pose proof (serve_keeps_session tasks int reqs first.2 rater_id session
                Hreqs Hs) as Hlater.
  fold later in Hlater. subst second.
  rewrite (get_task_existing tasks rater_id later session Hlater).
  cbn. rewrite Hfirst, Hs, Hlater. done.
Qed.

(** C7, as stated: whatever is stored for a rater is never re-created, a
    request leaving it as it is or advancing its position by one.  It
    fails on a progress file in which rater "alice" is stored as the
    integer 3: [get_task] replaces the stored value with a new session. *)
Lemma session_never_recreated_counterexample :
  ¬ (∀ (tasks : list Task) (int : string → option Z) (req : Request)
       (st : State) (rater_id : string) (stored : SessionValue),
       rater_sessions st !! rater_id = Some stored →
       ∃ stored',
         rater_sessions (handle tasks int req st).2 !! rater_id = Some stored' ∧
         (stored' = stored ∨
          ∃ session, stored = SessionDict session ∧
                     stored' = SessionDict (advanced session))).
Proof.
  intros Hclaim.
  destruct (Hclaim Example.tasks Example.int (GetTask "alice")
              Example.st_legacy "alice"%string (NotADict 3))
    as (stored' & Hafter & Hkept).
  - reflexivity.
  - vm_compute in Hafter. injection Hafter as <-.
    destruct Hkept as [Heq|(session & Heq & _)]; discriminate Heq.
Qed.

(** C7, amended.  A session stored as a dict is never deleted or
    re-created: over any sequence of requests its order is kept and its
    position is the one it had plus the number of accepted submissions by
    its rater, so it never decreases; a single request leaves it as it is
    or, when it is an accepted submission by the rater, advances it by
    exactly one.  A value stored for a rater that is not a dict is
    replaced by [get_task] with a new session at position 0. *)
Theorem dict_session_position_monotone (tasks : list Task)
    (int : string → option Z) :
  (∀ reqs st rater_id session,
     rater_sessions st !! rater_id = Some (SessionDict session) →
     ∃ session',
       rater_sessions (serve tasks int reqs st) !! rater_id
       = Some (SessionDict session') ∧
       order session' = order session ∧
       current_index session'
       = (current_index session
          + Z.of_nat (count_accepted tasks int rater_id reqs st))%Z ∧
       (current_index session ≤ current_index session')%Z) ∧
  (∀ req st rater_id session,
     rater_sessions st !! rater_id = Some (SessionDict session) →
     rater_sessions (handle tasks int req st).2 !! rater_id
     = Some (SessionDict (if accepted_submission tasks int rater_id req st
                          then advanced session else session))) ∧
  (∀ st rater_id stored,
     rater_sessions st !! rater_id = Some (NotADict stored) →
     ∃ order,
       rater_sessions (get_task tasks rater_id st).2 !! rater_id
       = Some (SessionDict {| order := order; current_index := 0 |})).
Proof.
  split; [|split].
  - intros reqs st rater_id session Hs. eexists. split.
    + by apply serve_advances_session.
    + cbn. split; [done|]. split; [done|]. lia.
  - intros req st rater_id session Hs. by apply handle_session_step.
  - intros st rater_id stored Hs.
    assert (needs_new_session (rater_sessions st) rater_id = true) as Hnew
      by (unfold needs_new_session; by rewrite Hs).
    rewrite (get_task_new tasks rater_id st Hnew). cbn.
    destruct (with_new_session_lookup tasks rater_id st) as (o & _ & Ho).
    eauto.
Qed.

(** ** The progress file *)

Section Persistence.
Variable e : ExperimentDefinition.
Variable tasks : list Task.
Variable int : string → option Z.

Lemma backfill_fold_keeps (ws : list string) (d : gmap string Z) w :
  is_Some (d !! w) →
  is_Some (foldl (λ d w, match d !! w with
                         | None => <[w := 0%Z]> d
                         | Some _ => d
                         end) d ws !! w).
Proof.
  revert d. induction ws as [|w' ws IH]; intros d Hw; [done|].
  cbn. apply IH. destruct (d !! w') eqn:Hw'; [done|].
  rewrite lookup_insert. case_decide; [by eexists|done].
Qed.

Lemma backfill_fold_covers (ws : list string) (d : gmap string Z) w :
  w ∈ ws →
  is_Some (foldl (λ d w, match d !! w with
                         | None => <[w := 0%Z]> d
                         | Some _ => d
                         end) d ws !! w).
Proof.
  revert d. induction ws as [|w' ws IH]; intros d Hin.
  - by apply elem_of_nil in Hin.
  - cbn. apply elem_of_cons in Hin as [->|Hin]; [|by apply IH].
    apply backfill_fold_keeps. destruct (d !! w') eqn:Hw'; [by eexists|].
    rewrite lookup_insert_eq. by eexists.
Qed.

Lemma backfill_covers (stored_scores : gmap string Z) :
  covers_weights e (backfill e stored_scores).
Proof. intros w Hw. by apply backfill_fold_covers. Qed.

Lemma backfill_fold_id (ws : list string) (d : gmap string Z) :
  (∀ w, w ∈ ws → is_Some (d !! w)) →
  foldl (λ d w, match d !! w with
                | None => <[w := 0%Z]> d
                | Some _ => d
                end) d ws = d.
Proof.
  induction ws as [|w' ws IH]; intros Hall; [done|].
  cbn. destruct (Hall w') as [v Hv]; [left|]. rewrite Hv.
  apply IH. intros w Hw. apply Hall. by right.
Qed.

(** Nothing is backfilled into a score map that has every candidate. *)
Lemma backfill_id (scores : gmap string Z) :
  covers_weights e scores → backfill e scores = scores.
Proof. intros Hcov. by apply backfill_fold_id. Qed.

Lemma default_fold_keeps (ws : list string) (d : gmap string Z) w :
  is_Some (d !! w) → is_Some (foldl (λ d w, <[w := 0%Z]> d) d ws !! w).
Proof.
  revert d. induction ws as [|w' ws IH]; intros d Hw; [done|].
  cbn. apply IH. rewrite lookup_insert. case_decide; [by eexists|done].
Qed.

Lemma default_aggregate_scores_covers :
  covers_weights e (default_aggregate_scores e).
Proof.
  unfold covers_weights, default_aggregate_scores.
  generalize (∅ : gmap string Z).
  induction (weights e) as [|w' ws IH]; intros d w Hin.
  - by apply elem_of_nil in Hin.
  - cbn. apply elem_of_cons in Hin as [->|Hin]; [|by apply IH].
    apply default_fold_keeps. rewrite lookup_insert_eq. by eexists.
Qed.

Lemma start_covers file g : covers_weights e (aggregate_scores (start e file g)).
Proof.
  unfold start, load_progress. destruct file as [data|]; cbn.
  - apply backfill_covers.
  - apply default_aggregate_scores_covers.
Qed.

Lemma add_score_keeps w' d st w :
  is_Some (aggregate_scores st !! w) →
  is_Some (aggregate_scores (add_score w' d st).2 !! w).
Proof.
  intros Hw. destruct (aggregate_scores st !! w') as [v|] eqn:Hw'.
  - rewrite (add_score_known _ _ _ _ Hw'). cbn. rewrite lookup_insert.
    case_decide; [by eexists|done].
  - by rewrite (add_score_unknown _ _ _ Hw').
Qed.

Lemma add_scores_keep wl wr dl dr st w :
  is_Some (aggregate_scores st !! w) →
  is_Some (aggregate_scores ((add_score wl dl;; add_score wr dr) st).2 !! w).
Proof.
  intros Hw. unfold mbind, M_bind.
  pose proof (add_score_keeps wl dl st w Hw) as H1.
  destruct (add_score wl dl st) as [[[]|e1] st1]; [|done].
  by apply add_score_keeps.
Qed.

Lemma apply_vote_keeps left_weight right_weight l_sel r_sel st w :
  is_Some (aggregate_scores st !! w) →
  is_Some (aggregate_scores
             (apply_vote left_weight right_weight l_sel r_sel st).2 !! w).
Proof.
  intros Hw. unfold apply_vote.
  repeat case_bool_decide; try by apply add_scores_keep. done.
Qed.

Lemma submit_rating_keeps rater_id datapoint_id left_weight right_weight
    left_selected right_selected st w :
  is_Some (aggregate_scores st !! w) →
  is_Some (aggregate_scores
             (submit_rating tasks int rater_id datapoint_id left_weight
                right_weight left_selected right_selected st).2 !! w).
Proof.
  intros Hw. rewrite submit_rating_steps.
  destruct (int left_selected) as [l_sel|]; [|done].
  destruct (int right_selected) as [r_sel|]; [|done].
  pose proof (apply_vote_keeps left_weight right_weight l_sel r_sel st w Hw)
    as Hvote.
  destruct (apply_vote left_weight right_weight l_sel r_sel st)
    as [[[]|e1] st1]; [|done].
  cbn in Hvote.
  destruct (rater_sessions st1 !! rater_id) as [[session|stored]|] eqn:Hs.
  - by rewrite (advance_dict _ _ _ Hs).
  - by rewrite (advance_not_a_dict _ _ _ Hs).
  - by rewrite (advance_no_session _ _ Hs).
Qed.

Lemma handle_keeps req st w :
  is_Some (aggregate_scores st !! w) →
  is_Some (aggregate_scores (handle tasks int req st).2 !! w).
Proof.
  intros Hw. destruct req as [r|r dp lw rw ls rs| |r]; cbn [handle].
  - by rewrite get_task_scores.
  - by apply submit_rating_keeps.
  - done.
  - by rewrite get_status_state.
Qed.

(** In every state of a running process each candidate has a score. *)
Lemma reachable_covers st :
  reachable e tasks int st → covers_weights e (aggregate_scores st).
Proof.
  induction 1 as [file g|req st _ IH].
  - apply start_covers.
  - intros w Hw. apply handle_keeps. by apply IH.
Qed.

Lemma load_after_save sessions scores st :
  covers_weights e scores →
  load_progress e (progress_store (save_progress sessions scores st).2)
  = (sessions, scores).
Proof. intros Hcov. cbn. by rewrite backfill_id. Qed.
End Persistence.

(** C8.  In every state of a running process, saving the sessions and
    scores and loading the file again gives the same session map and the
    same score map, so every rater's order and position and every
    candidate's score are as before; a process started on the saved file
    has them as its state. *)
Theorem save_load_round_trip (e : ExperimentDefinition) (tasks : list Task)
    (int : string → option Z) (st : State) :
  reachable e tasks int st →
  let saved := (save_progress (rater_sessions st) (aggregate_scores st) st).2 in
  load_progress e (progress_store saved)
  = (rater_sessions st, aggregate_scores st) ∧
  (∀ g, rater_sessions (start e (progress_store saved) g) = rater_sessions st ∧
        aggregate_scores (start e (progress_store saved) g) = aggregate_scores st) ∧
  (∀ rater_id, rater_sessions (start e (progress_store saved) (rng st)) !! rater_id
               = rater_sessions st !! rater_id) ∧
  (∀ w, aggregate_scores (start e (progress_store saved) (rng st)) !! w
        = aggregate_scores st !! w).
Proof.
  intros Hreach saved.
  pose proof (reachable_covers e tasks int st Hreach) as Hcov.
  pose proof (load_after_save e (rater_sessions st) (aggregate_scores st) st Hcov)
    as Hload.
  fold saved in Hload.
  assert (∀ g, rater_sessions (start e (progress_store saved) g) = rater_sessions st ∧
               aggregate_scores (start e (progress_store saved) g)
               = aggregate_scores st) as Hstart.
  { intros g. unfold start. rewrite Hload. done. }
  split; [exact Hload|]. split; [exact Hstart|]. split.
  - intros r. by rewrite (proj1 (Hstart (rng st))).
  - intros w. by rewrite (proj2 (Hstart (rng st))).
Qed.

(** ** The properties on the example experiment *)

Lemma submit_rating_four_way_rule_witness :
  ∃ scores',
    apply_vote "w1" "w2" 1 0 Example.st1 = (Ok tt, with_scores Example.st1 scores') ∧
    scores' !! "w1"%string = Some 1%Z ∧
    scores' !! "w2"%string = Some (-1)%Z ∧
    scores' !! "w3"%string = Some 0%Z ∧
    aggregate_scores
      (submit_rating Example.tasks Example.int
         "alice" "dp1" "w1" "w2" "1" "0" Example.st1).2 = scores'.
Proof.
  destruct (submit_rating_four_way_rule Example.tasks Example.int Example.st1
              "alice" "dp1" "w1" "w2" "1" "0" true false)
    as (scores' & Hvote & Hscores & Hother & Haccepted).
  - by eexists.
  - by eexists.
  - reflexivity.
  - reflexivity.
  - exists scores'. split; [exact Hvote|].
    split; [by rewrite Hscores|]. split; [by rewrite Hscores|].
    split; [by rewrite Hscores|].
    destruct (submit_rating Example.tasks Example.int
                "alice" "dp1" "w1" "w2" "1" "0" Example.st1)
      as [[resp|e] st'] eqn:Hsub.
    + exact (Haccepted resp st' eq_refl).
    + vm_compute in Hsub. discriminate Hsub.
Defined.

Lemma vote_sum_accounting_witness :
  (∃ st',
     serve_accepted Example.tasks Example.int
       [GetTask "alice"; Example.alice_votes_right; Example.alice_votes_both]
       Example.st0 = Some st' ∧
     sum_scores (aggregate_scores st') = 2%Z) ∧
  (sum_scores
     (aggregate_scores
        (submit_rating Example.tasks Example.int
           "alice" "dp1" "w1" "w2" "0" "1" Example.st1).2)
   - sum_scores (aggregate_scores Example.st1))%Z = 0%Z.
Proof.
  destruct (vote_sum_accounting Example.tasks Example.int) as [Hvote Hrun].
  split.
  - destruct (serve_accepted Example.tasks Example.int
                [GetTask "alice"; Example.alice_votes_right;
                 Example.alice_votes_both]
                Example.st0) as [st'|] eqn:Hserve.
    + exists st'. split; [reflexivity|].
      exact (Hrun Example.experiment_data _ Example.st0 st' eq_refl Hserve).
    + vm_compute in Hserve. discriminate Hserve.
  - destruct (submit_rating Example.tasks Example.int
                "alice" "dp1" "w1" "w2" "0" "1" Example.st1)
      as [[resp|e] st'] eqn:Hsub.
    + exact (proj1 (Hvote _ _ _ _ _ _ _ _ _ Hsub)).
    + vm_compute in Hsub. discriminate Hsub.
Defined.

Lemma get_task_creates_session_witness :
  ∃ shuffled,
    rater_sessions (get_task Example.tasks "alice" Example.st0).2 !! "alice"%string
    = Some (SessionDict {| order := shuffled; current_index := 0 |}) ∧
    shuffled ≡ₚ range 6.
Proof.
  destruct (get_task_creates_session Example.tasks Example.st0 "alice" eq_refl)
    as (shuffled & g & resp & st' & _ & Hperm & _ & _ & Hrun & -> & _).
  exists shuffled. rewrite Hrun. cbn. rewrite lookup_insert_eq.
  split; [reflexivity|exact Hperm].
Defined.

Lemma get_task_repeatable_witness :
  let first := get_task Example.tasks "alice" Example.st0 in
  let later :=
    serve Example.tasks Example.int
      [GetStatus "alice"; GetTask "bob"; Example.bob_votes_left; GetTask "alice"]
      first.2 in
  (get_task Example.tasks "alice" later).1 = first.1.
Proof.
  intros first later.
  refine (proj1 (get_task_repeatable Example.tasks Example.int Example.st0
                   "alice"
                   [GetStatus "alice"; GetTask "bob"; Example.bob_votes_left;
                    GetTask "alice"] _)).
  repeat constructor. cbn. discriminate.
Defined.

Lemma advance_without_session_fails_witness :
  advance "ghost" Example.st1 = (Raise (KeyError "ghost"), Example.st1) ∧
  ∃ st',
    submit_rating Example.tasks Example.int "ghost" "dp1" "w1" "w2" "1" "0"
      Example.st1 = (Raise (KeyError "ghost"), st') ∧
    rater_sessions st' !! "ghost"%string = None.
Proof.
  destruct (advance_without_session_fails Example.tasks Example.int Example.st1
              "ghost" eq_refl) as [Hadvance Hsubmit].
  split; [exact Hadvance|].
  destruct (Hsubmit "dp1" "w1" "w2" "1" "0"%string)
    as (e & st' & Hrun & _ & Hnone & _ & Hkey).
  exists st'. split; [|exact Hnone].
  rewrite Hrun. f_equal. f_equal. apply Hkey.
  exists 1%Z, 0%Z. eexists. split; [reflexivity|]. split; [reflexivity|].
  vm_compute. reflexivity.
Defined.

Lemma dict_session_position_monotone_witness :
  ∃ session',
    rater_sessions
      (serve Example.tasks Example.int
         [Example.alice_votes_right; GetTask "alice"; Example.bob_votes_left;
          Example.alice_votes_both]
         Example.st1) !! "alice"%string = Some (SessionDict session') ∧
    current_index session' = 2%Z.
Proof.
  destruct (dict_session_position_monotone Example.tasks Example.int)
    as [Hrun _].
  destruct (rater_sessions Example.st1 !! "alice"%string)
    as [[session|]|] eqn:Hs; [|vm_compute in Hs; discriminate Hs ..].
  destruct (Hrun [Example.alice_votes_right; GetTask "alice";
                  Example.bob_votes_left; Example.alice_votes_both]
              Example.st1 "alice"%string session Hs)
    as (session' & Hafter & _ & Hpos & _).
  exists session'. split; [exact Hafter|].
  rewrite Hpos. vm_compute in Hs. injection Hs as <-. vm_compute. reflexivity.
Defined.

Lemma example_reachable :
  reachable Example.experiment_data Example.tasks Example.int
    (handle Example.tasks Example.int Example.alice_votes_right Example.st1).2.
Proof.
  apply reachable_step.
  apply (reachable_step _ _ _ (GetTask "alice") Example.st0).
  apply reachable_start.
Qed.

Lemma save_load_round_trip_witness :
  let st := (handle Example.tasks Example.int Example.alice_votes_right
               Example.st1).2 in
  load_progress Example.experiment_data
    (progress_store (save_progress (rater_sessions st) (aggregate_scores st) st).2)
  = (rater_sessions st, aggregate_scores st).
Proof.
  intros st.
  exact (proj1 (save_load_round_trip Example.experiment_data Example.tasks
                  Example.int st example_reachable)).
Defined.

Lemma rejected_submission_keeps_vote_witness :
  ∃ scores',
    submit_rating Example.tasks Example.int "ghost" "dp1" "w1" "w2" "0" "1"
      Example.st0
    = (Raise (KeyError "ghost"), with_scores Example.st0 scores') ∧
    scores' ≠ aggregate_scores Example.st0.
Proof.
  destruct (rejected_submission_keeps_vote Example.tasks Example.int Example.st0
              "ghost" "dp1" "w1" "w2" "0" "1" 0 1)
    as (scores' & Hrun & _ & Hchanged).
  - reflexivity.
  - by eexists.
  - by eexists.
  - reflexivity.
  - reflexivity.
  - exists scores'. split; [exact Hrun|]. apply Hchanged.
    split; [lia|]. left. discriminate.
Defined.

Lemma unrecognised_selection_still_advances_witness :
  ∃ st',
    submit_rating Example.tasks Example.int "alice" "dp1" "w1" "w2" "2" "0"
      Example.st1 = (Ok (NextTaskRedirect "alice"), st') ∧
    aggregate_scores st' = aggregate_scores Example.st1.
Proof.
  destruct (rater_sessions Example.st1 !! "alice"%string)
    as [[session|]|] eqn:Hs; [|vm_compute in Hs; discriminate Hs ..].
  destruct (unrecognised_selection_still_advances Example.tasks Example.int
              Example.st1 "alice" "dp1" "w1" "w2" "2" "0" 2 0 session)
    as (st' & Hrun & _ & Hscores & _).
  - reflexivity.
  - reflexivity.
  - lia.
  - exact Hs.
  - exists st'. split; [|exact Hscores].
    rewrite Hrun. f_equal. f_equal.
    vm_compute in Hs. injection Hs as <-. reflexivity.
Defined.

(** * Further properties *)

(** ** Building the task list *)

Section BuildFailures.
Variable e : ExperimentDefinition.

Lemma make_task_raises i inp w1 w2 ex :
  make_task e i inp w1 w2 = Raise ex →
  (ex = KeyError w1 ∧ outputs e !! w1 = None) ∨
  (ex = KeyError w2 ∧ outputs e !! w2 = None) ∨
  ex = IndexError.
Proof.
  unfold make_task, dict_get, list_get.
  destruct (outputs e !! w1) as [o1|]; cbn; [|intros [= <-]; by left].
  destruct (o1 !! i) as [lo|]; cbn; [|intros [= <-]; by right; right].
  destruct (outputs e !! w2) as [o2|]; cbn; [|intros [= <-]; right; by left].
  destruct (o2 !! i) as [ro|]; cbn; [done|intros [= <-]; by right; right].
Qed.

Lemma append_pairs_result i inp pairs acc :
  match append_pairs e i inp pairs acc with
  | Ok ts => ∀ w1 w2, (w1, w2) ∈ pairs → ∃ t, make_task e i inp w1 w2 = Ok t
  | Raise ex => ∃ w1 w2, (w1, w2) ∈ pairs ∧ make_task e i inp w1 w2 = Raise ex
  end.
Proof.
  revert acc. induction pairs as [|[w1 w2] rest IH]; intros acc.
  - cbn. intros w1 w2 Hin. by apply elem_of_nil in Hin.
  - cbn [append_pairs].
    destruct (make_task e i inp w1 w2) as [t|ex] eqn:Hmk; cbn.
    + specialize (IH (acc ++ [t])).
      destruct (append_pairs e i inp rest (acc ++ [t])) as [ts|ex].
      * intros w1' w2' [[= -> ->]|Hin]%elem_of_cons; eauto.
      * destruct IH as (w1' & w2' & Hin & Hraise).
        exists w1', w2'. split; [by right|done].
    + exists w1, w2. split; [left|done].
Qed.

Lemma append_inputs_result i inps acc :
  match append_inputs e i inps acc with
  | Ok ts =>
      ∀ j inp w1 w2, inps !! j = Some inp →
        (w1, w2) ∈ combinations2 (weights e) →
        ∃ t, make_task e (i + j) inp w1 w2 = Ok t
  | Raise ex =>
      ∃ j inp w1 w2, inps !! j = Some inp ∧
        (w1, w2) ∈ combinations2 (weights e) ∧
        make_task e (i + j) inp w1 w2 = Raise ex
  end.
Proof.
  revert i acc. induction inps as [|inp rest IH]; intros i acc.
  - cbn. intros j inp w1 w2 Hj. done.
  - cbn [append_inputs].
    pose proof (append_pairs_result i inp (combinations2 (weights e)) acc)
      as Hpairs.
    destruct (append_pairs e i inp (combinations2 (weights e)) acc)
      as [acc'|ex]; cbn.
    + specialize (IH (S i) acc').
      destruct (append_inputs e (S i) rest acc') as [ts|ex].
      * intros [|j] inp' w1 w2 Hj Hin.
        -- injection Hj as <-. rewrite Nat.add_0_r. by apply Hpairs.
        -- replace (i + S j) with (S i + j) by lia. by apply IH.
      * destruct IH as (j & inp' & w1 & w2 & Hj & Hin & Hraise).
        exists (S j), inp', w1, w2.
        replace (i + S j) with (S i + j) by lia. done.
    + destruct Hpairs as (w1 & w2 & Hin & Hraise).
      exists 0, inp, w1, w2. rewrite Nat.add_0_r. done.
Qed.

(** With two candidates or more, every candidate is in some pair. *)
Lemma in_some_pair (ws : list string) w :
  2 ≤ length ws → w ∈ ws →
  ∃ w', (w, w') ∈ combinations2 ws ∨ (w', w) ∈ combinations2 ws.
Proof.
  intros Hlen [i Hi]%list_elem_of_lookup.
  destruct (decide (i = 0)) as [->|Hne].
  - destruct (lookup_lt_is_Some_2 ws 1) as [w' Hw']; [lia|].
    exists w'. left. apply elem_of_combinations2. exists 0, 1.
    split; [lia|done].
  - destruct (lookup_lt_is_Some_2 ws 0) as [w' Hw']; [lia|].
    exists w'. right. apply elem_of_combinations2. exists 0, i.
    split; [lia|done].
Qed.

Lemma make_task_reads i inp w1 w2 t :
  make_task e i inp w1 w2 = Ok t →
  (∃ o out, outputs e !! w1 = Some o ∧ o !! i = Some out) ∧
  (∃ o out, outputs e !! w2 = Some o ∧ o !! i = Some out).
Proof.
  unfold make_task, dict_get, list_get.
  destruct (outputs e !! w1) as [o1|]; cbn; [|done].
  destruct (o1 !! i) as [lo|] eqn:H1; cbn; [|done].
  destruct (outputs e !! w2) as [o2|]; cbn; [|done].
  destruct (o2 !! i) as [ro|] eqn:H2; cbn; [|done].
  intros _. split; eauto.
Qed.

Lemma make_task_complete i inp w1 w2 :
  outputs_complete e → i < length (inputs e) →
  w1 ∈ weights e → w2 ∈ weights e →
  ∃ t, make_task e i inp w1 w2 = Ok t.
Proof.
  intros Hc Hi H1 H2.
  destruct (Hc w1 i H1 Hi) as (o1 & lo & Ho1 & Hlo).
  destruct (Hc w2 i H2 Hi) as (o2 & ro & Ho2 & Hro).
  eexists. unfold make_task, dict_get, list_get.
  rewrite Ho1. cbn. rewrite Hlo. cbn. rewrite Ho2. cbn. rewrite Hro. cbn.
  reflexivity.
Qed.
End BuildFailures.

(** X1.  With two candidates or more, the build of the task list returns
    exactly when [outputs[w][i]] exists for every candidate [w] and every
    datapoint index [i]; when it raises, the exception is a [KeyError] on
    a candidate that [outputs] lacks or an [IndexError]. *)
Theorem build_tasks_succeeds_iff (e : ExperimentDefinition) :
  2 ≤ length (weights e) →
  ((∃ ts, build_tasks e = Ok ts) ↔ outputs_complete e) ∧
  (∀ ex, build_tasks e = Raise ex →
     (∃ w, w ∈ weights e ∧ outputs e !! w = None ∧ ex = KeyError w) ∨
     ex = IndexError).
Proof.
  intros Hlen.
  pose proof (append_inputs_result e 0 (inputs e) []) as Hres.
  fold (build_tasks e) in Hres. split; [split|].
  - intros [ts Hrun]. rewrite Hrun in Hres. intros w i Hw Hi.
    destruct (lookup_lt_is_Some_2 (inputs e) i Hi) as [inp Hinp].
    destruct (in_some_pair (weights e) w Hlen Hw) as [w' [Hin|Hin]];
      destruct (Hres i inp _ _ Hinp Hin) as [t Ht];
      apply make_task_reads in Ht as [H1 H2]; done.
  - intros Hc.
    destruct (append_inputs_ok e 0 (inputs e) []) as (blocks & Hrun & _).
    + intros j inp w1 w2 Hj Hin.
      apply combinations2_fst_snd in Hin as [H1 H2].
      apply make_task_complete; [done| |done|done].
      cbn. by apply lookup_lt_Some in Hj.
    + eexists. exact Hrun.
  - intros ex Hrun. rewrite Hrun in Hres.
    destruct Hres as (j & inp & w1 & w2 & _ & Hin & Hraise).
    apply combinations2_fst_snd in Hin as [H1 H2].
    apply make_task_raises in Hraise as [[-> Hnone]|[[-> Hnone]| -> ]].
    + left. by exists w1.
    + left. by exists w2.
    + by right.
Qed.

(** X2.  With fewer than two candidates, or without datapoints, the task
    list is empty and the build never reads [outputs]: it returns
    whatever [outputs] holds. *)
Theorem build_tasks_empty (e : ExperimentDefinition) :
  length (weights e) < 2 ∨ inputs e = [] →
  build_tasks e = Ok [].
Proof.
  intros [Hlen|Hnil].
  - assert (combinations2 (weights e) = []) as Hcomb.
    { destruct (weights e) as [|w1 [|w2 ws]]; cbn in *; [done|done|lia]. }
    unfold build_tasks. generalize 0.
    induction (inputs e) as [|inp rest IH]; intros i; [done|].
    cbn [append_inputs]. rewrite Hcomb. cbn. apply IH.
  - unfold build_tasks. by rewrite Hnil.
Qed.

(** ** Loading the progress file *)

Lemma default_fold_lookup (ws : list string) (d : gmap string Z) w :
  foldl (λ d w, <[w := 0%Z]> d) d ws !! w
  = if decide (w ∈ ws) then Some 0%Z else d !! w.
Proof.
  revert d. induction ws as [|w' ws IH]; intros d.
  - rewrite decide_False; [done|]. apply not_elem_of_nil.
  - cbn. rewrite IH. destruct (decide (w ∈ ws)) as [Hin|Hout].
    + rewrite decide_True; [done|by right].
    + rewrite lookup_insert. destruct (decide (w' = w)) as [->|Hne].
      * rewrite decide_True; [done|left].
      * rewrite decide_False; [done|].
        intros [->|?]%elem_of_cons; done.
Qed.

Lemma backfill_fold_lookup (ws : list string) (d : gmap string Z) w :
  foldl (λ d w, match d !! w with
                | None => <[w := 0%Z]> d
                | Some _ => d
                end) d ws !! w
  = match d !! w with
    | Some v => Some v
    | None => if decide (w ∈ ws) then Some 0%Z else None
    end.
Proof.
  revert d. induction ws as [|w' ws IH]; intros d.
  - cbn. destruct (d !! w); [done|].
    rewrite decide_False; [done|]. apply not_elem_of_nil.
  - cbn. rewrite IH. destruct (d !! w') as [v'|] eqn:Hw'.
    + destruct (d !! w) as [v|] eqn:Hw; [done|].
      destruct (decide (w ∈ ws)) as [Hin|Hout].
      * rewrite decide_True; [done|by right].
      * rewrite decide_False; [done|].
        intros [->|?]%elem_of_cons; [congruence|done].
    + rewrite lookup_insert. destruct (decide (w' = w)) as [->|Hne].
      * rewrite Hw'. rewrite decide_True; [done|left].
      * destruct (d !! w) as [v|]; [done|].
        destruct (decide (w ∈ ws)) as [Hin|Hout].
        -- rewrite decide_True; [done|by right].
        -- rewrite decide_False; [done|].
           intros [->|?]%elem_of_cons; done.
Qed.

(** X3.  What [load_progress] returns.  The sessions are the stored ones,
    none without a file or without the field.  A score is the stored one
    when the file has one for the candidate, also for a candidate that is
    not in the experiment; it is 0 for a candidate of the experiment
    without a stored score; no other candidate has a score.  A file
    without the score field loads the scores of a start without a file. *)
Theorem load_progress_lookup (e : ExperimentDefinition)
    (file : option Snapshot) :
  let stored_sessions := default ∅ (file ≫= snap_rater_sessions) in
  let stored_scores := default ∅ (file ≫= snap_aggregate_scores) in
  (load_progress e file).1 = stored_sessions ∧
  (∀ c, (load_progress e file).2 !! c
        = match stored_scores !! c with
          | Some v => Some v
          | None => if decide (c ∈ weights e) then Some 0%Z else None
          end) ∧
  (file ≫= snap_aggregate_scores = None →
   (load_progress e file).2 = default_aggregate_scores e).
Proof.
  intros stored_sessions stored_scores.
  assert (∀ c, (load_progress e file).2 !! c
               = match stored_scores !! c with
                 | Some v => Some v
                 | None => if decide (c ∈ weights e) then Some 0%Z else None
                 end) as Hlookup.
  { intros c. subst stored_scores. destruct file as [data|]; cbn.
    - apply backfill_fold_lookup.
    - unfold default_aggregate_scores. by rewrite default_fold_lookup. }
  split; [by destruct file|]. split; [exact Hlookup|].
  intros Hnone. apply map_eq. intros c. rewrite Hlookup.
  subst stored_scores. rewrite Hnone. cbn.
  unfold default_aggregate_scores. by rewrite default_fold_lookup.
Qed.

(** ** The progress file and the state in memory *)

Section Sync.
Variable e : ExperimentDefinition.
Variable tasks : list Task.
Variable int : string → option Z.

Lemma start_in_sync file g : in_sync e (start e file g).
Proof. unfold in_sync, start. cbn. by destruct (load_progress e file). Qed.

Lemma persisted_in_sync st :
  covers_weights e (aggregate_scores st) → in_sync e (persisted st).
Proof. intros Hcov. unfold in_sync. cbn. by rewrite backfill_id. Qed.

Lemma with_new_session_persisted rater_id st :
  ∃ st', with_new_session tasks st rater_id = persisted st' ∧
         aggregate_scores st' = aggregate_scores st.
Proof.
  unfold with_new_session.
  destruct (shuffle (range (length tasks)) (rng st)) as [o g].
  eexists. split; [reflexivity|done].
Qed.

(** An accepted request leaves the file and the memory in sync. *)
Lemma handle_accepted_in_sync req st resp st' :
  covers_weights e (aggregate_scores st) → in_sync e st →
  handle tasks int req st = (Ok resp, st') → in_sync e st'.
Proof.
  intros Hcov Hsync. destruct req as [r|r dp lw rw ls rs| |r]; cbn [handle].
  - destruct (get_task_cases tasks r st) as [(s & _ & ->)|[_ ->]].
    + by intros [= _ <-].
    + intros [= _ <-].
      destruct (with_new_session_persisted r st) as (st1 & -> & Hsc).
      apply persisted_in_sync. by rewrite Hsc.
  - intros Hsub.
    apply submit_rating_accepted
      in Hsub as (l & r' & st1 & s & _ & _ & Hvote & _ & _ & ->).
    apply persisted_in_sync. cbn. intros w Hw.
    pose proof (apply_vote_keeps lw rw l r' st w (Hcov w Hw)) as Hkeep.
    by rewrite Hvote in Hkeep.
  - by intros [= _ <-].
  - intros H. pose proof (get_status_state tasks r st) as Hst.
    rewrite H in Hst. cbn in Hst. by subst.
Qed.

Lemma handle_covers req st :
  covers_weights e (aggregate_scores st) →
  covers_weights e (aggregate_scores (handle tasks int req st).2).
Proof. intros Hcov w Hw. apply handle_keeps. by apply Hcov. Qed.

Lemma serve_accepted_in_sync reqs st st' :
  covers_weights e (aggregate_scores st) → in_sync e st →
  serve_accepted tasks int reqs st = Some st' → in_sync e st'.
Proof.
  revert st. induction reqs as [|req rest IH]; intros st Hcov Hsync.
  - by intros [= <-].
  - cbn [serve_accepted].
    destruct (handle tasks int req st) as [[resp|ex] st1] eqn:Hreq; [|done].
    apply IH.
    + pose proof (handle_covers req st Hcov) as H. by rewrite Hreq in H.
    + by eapply handle_accepted_in_sync.
Qed.

(** Whatever a request returns, the sessions in the file stay the
    sessions in memory. *)
Lemma handle_sessions_in_file req st :
  (load_progress e (progress_store st)).1 = rater_sessions st →
  (load_progress e (progress_store (handle tasks int req st).2)).1
  = rater_sessions (handle tasks int req st).2.
Proof.
  intros Hsync. destruct req as [r|r dp lw rw ls rs| |r]; cbn [handle].
  - destruct (get_task_cases tasks r st) as [(s & _ & ->)|[_ ->]]; [done|].
    cbn. by destruct (with_new_session_persisted r st) as (st1 & -> & _).
  - destruct (submit_rating tasks int r dp lw rw ls rs st)
      as [[resp|ex] st'] eqn:Hsub; cbn.
    + by apply submit_rating_accepted
        in Hsub as (l & r' & st1 & s & _ & _ & _ & _ & _ & ->).
    + apply submit_rating_rejected in Hsub. by rewrite Hsub.
  - done.
  - by rewrite get_status_state.
Qed.
End Sync.

(** X4.  In every state of a running process, whatever the requests
    returned, loading the progress file gives the sessions the process has
    in memory: a restart at any moment finds every rater's order and
    position. *)
Theorem sessions_always_persisted (e : ExperimentDefinition)
    (tasks : list Task) (int : string → option Z) (st : State) :
  reachable e tasks int st →
  (load_progress e (progress_store st)).1 = rater_sessions st ∧
  ∀ g, rater_sessions (start e (progress_store st) g) = rater_sessions st.
Proof.
  intros Hreach.
  assert ((load_progress e (progress_store st)).1 = rater_sessions st) as Hs.
  { induction Hreach as [file g|req st _ IH].
    - done.
    - by apply handle_sessions_in_file. }
  split; [exact Hs|]. intros g. exact Hs.
Qed.

(** X5.  From the start of the process on any progress file (or none), as
    long as every request is accepted, loading the progress file gives
    the sessions and the scores the process has in memory: a restart
    continues from the same state. *)
Theorem accepted_requests_keep_in_sync (e : ExperimentDefinition)
    (tasks : list Task) (int : string → option Z)
    (file : option Snapshot) (g : Rng) (reqs : list Request) (st : State) :
  serve_accepted tasks int reqs (start e file g) = Some st →
  load_progress e (progress_store st) = (rater_sessions st, aggregate_scores st) ∧
  ∀ g', rater_sessions (start e (progress_store st) g') = rater_sessions st ∧
        aggregate_scores (start e (progress_store st) g') = aggregate_scores st.
Proof.
  intros Hrun.
  assert (in_sync e st) as Hsync.
  { eapply serve_accepted_in_sync; [| |exact Hrun].
    - apply start_covers.
    - apply start_in_sync. }
  split; [exact Hsync|]. intros g'. unfold start.
  unfold in_sync in Hsync. by rewrite Hsync.
Qed.

(** ** Which submissions are accepted *)

Section Acceptance.
Variable tasks : list Task.
Variable int : string → option Z.

(** The two updates of a branch of the scoring step, by what the score
    map has for the two candidates. *)
Lemma add_scores_outcome wl wr dl dr st :
  match aggregate_scores st !! wl, aggregate_scores st !! wr with
  | None, _ =>
      (add_score wl dl;; add_score wr dr) st = (Raise (KeyError wl), st)
  | Some v, None =>
      (add_score wl dl;; add_score wr dr) st
      = (Raise (KeyError wr),
         with_scores st (<[wl := (v + dl)%Z]> (aggregate_scores st)))
  | Some _, Some _ =>
      ∃ scores',
        (add_score wl dl;; add_score wr dr) st = (Ok tt, with_scores st scores')
  end.
Proof.
  destruct (aggregate_scores st !! wl) as [vl|] eqn:Hl.
  - destruct (aggregate_scores st !! wr) as [vr|] eqn:Hr.
    + destruct (add_scores_known wl wr dl dr st) as (scores' & Hrun & _);
        [by eexists|by eexists|]. eauto.
    + unfold mbind, M_bind. rewrite (add_score_known _ _ _ _ Hl).
      rewrite add_score_unknown; [done|]. cbn.
      rewrite lookup_insert_ne; [done|]. intros ->. congruence.
  - unfold mbind, M_bind. by rewrite (add_score_unknown _ _ _ Hl).
Qed.

(** The scoring step when it cannot fail: the selections are not both
    0 or 1, or both candidates have a score. *)
Lemma apply_vote_known left_weight right_weight l_sel r_sel st :
  (recognised l_sel r_sel →
   is_Some (aggregate_scores st !! left_weight) ∧
   is_Some (aggregate_scores st !! right_weight)) →
  ∃ scores',
    apply_vote left_weight right_weight l_sel r_sel st
    = (Ok tt, with_scores st scores') ∧
    ∀ c, scores' !! c
         = score_after left_weight right_weight
             (vote_deltas l_sel r_sel).1 (vote_deltas l_sel r_sel).2 c
           <$> aggregate_scores st !! c.
Proof.
  intros Hknown. destruct (decide (recognised l_sel r_sel)) as [Hin|Hout].
  - destruct (Hknown Hin) as [Hl Hr].
    rewrite (apply_vote_table _ _ _ _ Hin). by apply add_scores_known.
  - exists (aggregate_scores st).
    rewrite (apply_vote_no_branch _ _ _ _ Hout),
      (vote_deltas_no_branch _ _ Hout), with_scores_same.
    split; [done|]. intros c. unfold score_after. cbn.
    destruct (aggregate_scores st !! c); cbn; [|done].
    f_equal. repeat case_decide; lia.
Qed.

Lemma submit_rating_accepts rater_id datapoint_id left_weight right_weight
    left_selected right_selected st l_sel r_sel session :
  int left_selected = Some l_sel → int right_selected = Some r_sel →
  (recognised l_sel r_sel →
   is_Some (aggregate_scores st !! left_weight) ∧
   is_Some (aggregate_scores st !! right_weight)) →
  rater_sessions st !! rater_id = Some (SessionDict session) →
  ∃ scores',
    submit_rating tasks int rater_id datapoint_id left_weight right_weight
      left_selected right_selected st
    = (Ok (submit_response tasks rater_id (current_index session + 1)),
       persisted
         (with_sessions (with_scores st scores')
            (<[rater_id := SessionDict (advanced session)]>
               (rater_sessions st)))) ∧
    ∀ c, scores' !! c
         = score_after left_weight right_weight
             (vote_deltas l_sel r_sel).1 (vote_deltas l_sel r_sel).2 c
           <$> aggregate_scores st !! c.
Proof.
  intros Hl Hr Hknown Hs.
  destruct (apply_vote_known left_weight right_weight l_sel r_sel st Hknown)
    as (scores' & Hvote & Hsc).
  exists scores'. split; [|exact Hsc].
  rewrite submit_rating_steps, Hl, Hr, Hvote.
  rewrite (advance_dict rater_id (with_scores st scores') session Hs). done.
Qed.
End Acceptance.

(** X6.  A submission is accepted exactly when both selections parse, the
    rater has a session stored as a dict, and, if both selections are 0 or
    1, both candidates have a score.  Nothing else is checked: not the
    datapoint, not whether the pair is the rater's current task, not
    whether the rater has already completed all tasks.  A submission with
    a selection that does not parse raises [ValueError] and leaves the
    state untouched. *)
Theorem submit_rating_accepted_iff (tasks : list Task)
    (int : string → option Z) (st : State)
    (rater_id datapoint_id left_weight right_weight
     left_selected right_selected : string) :
  ((∃ resp st',
      submit_rating tasks int rater_id datapoint_id left_weight right_weight
        left_selected right_selected st = (Ok resp, st')) ↔
   (∃ l_sel r_sel session,
      int left_selected = Some l_sel ∧ int right_selected = Some r_sel ∧
      rater_sessions st !! rater_id = Some (SessionDict session) ∧
      (recognised l_sel r_sel →
       is_Some (aggregate_scores st !! left_weight) ∧
       is_Some (aggregate_scores st !! right_weight)))) ∧
  (int left_selected = None ∨ int right_selected = None →
   submit_rating tasks int rater_id datapoint_id left_weight right_weight
     left_selected right_selected st = (Raise ValueError, st)).
Proof.
  split; [split|].
  - intros (resp & st' & Hsub).
    apply submit_rating_accepted
      in Hsub as (l & r & st1 & s & Hl & Hr & Hvote & Hs & _ & _).
    exists l, r, s. split; [done|]. split; [done|]. split; [done|].
    intros Hin. rewrite (apply_vote_table _ _ _ _ Hin) in Hvote.
    pose proof (add_scores_outcome left_weight right_weight
                  (vote_deltas l r).1 (vote_deltas l r).2 st) as Hout.
    destruct (aggregate_scores st !! left_weight) as [vl|].
    + destruct (aggregate_scores st !! right_weight) as [vr|].
      * split; by eexists.
      * rewrite Hvote in Hout. done.
    + rewrite Hvote in Hout. done.
  - intros (l & r & s & Hl & Hr & Hs & Hknown).
    destruct (submit_rating_accepts tasks int rater_id datapoint_id
                left_weight right_weight left_selected right_selected
                st l r s Hl Hr Hknown Hs) as (scores' & Hrun & _).
    eauto.
  - rewrite submit_rating_steps. intros [-> | Hr]; [done|].
    rewrite Hr. by destruct (int left_selected).
Qed.

(** X7.  A submission with both selections 0 or 1 whose left candidate
    has no score raises [KeyError] on it and leaves the state untouched.
    When the left candidate has a score and the right one has none, the
    left score has already moved by its delta when [KeyError] is raised on
    the right candidate: the state keeps the moved score, the session of
    the rater and the progress file are as before. *)
Theorem submit_rating_unknown_candidate (tasks : list Task)
    (int : string → option Z) (st : State)
    (rater_id datapoint_id left_weight right_weight
     left_selected right_selected : string) (l_sel r_sel : Z) :
  int left_selected = Some l_sel → int right_selected = Some r_sel →
  recognised l_sel r_sel →
  (aggregate_scores st !! left_weight = None →
   submit_rating tasks int rater_id datapoint_id left_weight right_weight
     left_selected right_selected st = (Raise (KeyError left_weight), st)) ∧
  (∀ v, aggregate_scores st !! left_weight = Some v →
        aggregate_scores st !! right_weight = None →
        submit_rating tasks int rater_id datapoint_id left_weight right_weight
          left_selected right_selected st
        = (Raise (KeyError right_weight),
           with_scores st
             (<[left_weight := (v + (vote_deltas l_sel r_sel).1)%Z]>
                (aggregate_scores st))) ∧
        (vote_deltas l_sel r_sel).1 ≠ 0%Z).
Proof.
  intros Hl Hr Hin.
  pose proof (add_scores_outcome left_weight right_weight
                (vote_deltas l_sel r_sel).1 (vote_deltas l_sel r_sel).2 st)
    as Hout.
  split.
  - intros Hnone. rewrite Hnone in Hout.
    by rewrite submit_rating_steps, Hl, Hr, (apply_vote_table _ _ _ _ Hin), Hout.
  - intros v Hv Hnone. rewrite Hv, Hnone in Hout. split.
    + by rewrite submit_rating_steps, Hl, Hr, (apply_vote_table _ _ _ _ Hin),
        Hout.
    + destruct Hin as [[-> | ->] [-> | ->]]; vm_compute; discriminate.
Qed.

(** ** The keys of the two maps *)

Section Keys.
Variable tasks : list Task.
Variable int : string → option Z.

Lemma add_score_dom w d st :
  dom (aggregate_scores (add_score w d st).2) = dom (aggregate_scores st).
Proof.
  destruct (aggregate_scores st !! w) as [v|] eqn:Hw.
  - rewrite (add_score_known _ _ _ _ Hw). cbn.
    apply dom_insert_lookup_L. by eexists.
  - by rewrite (add_score_unknown _ _ _ Hw).
Qed.

Lemma add_scores_dom wl wr dl dr st :
  dom (aggregate_scores ((add_score wl dl;; add_score wr dr) st).2)
  = dom (aggregate_scores st).
Proof.
  unfold mbind, M_bind. pose proof (add_score_dom wl dl st) as H1.
  destruct (add_score wl dl st) as [[[]|ex] st1]; [|done].
  cbn in H1. by rewrite add_score_dom.
Qed.

Lemma apply_vote_dom left_weight right_weight l_sel r_sel st :
  dom (aggregate_scores (apply_vote left_weight right_weight l_sel r_sel st).2)
  = dom (aggregate_scores st).
Proof.
  unfold apply_vote. repeat case_bool_decide; try apply add_scores_dom. done.
Qed.

Lemma submit_rating_dom rater_id datapoint_id left_weight right_weight
    left_selected right_selected st :
  let st' := (submit_rating tasks int rater_id datapoint_id left_weight
                right_weight left_selected right_selected st).2 in
  dom (aggregate_scores st') = dom (aggregate_scores st) ∧
  dom (rater_sessions st') = dom (rater_sessions st).
Proof.
  cbn zeta. rewrite submit_rating_steps.
  destruct (int left_selected) as [l_sel|]; [|done].
  destruct (int right_selected) as [r_sel|]; [|done].
  pose proof (apply_vote_dom left_weight right_weight l_sel r_sel st) as Hdom.
  destruct (apply_vote left_weight right_weight l_sel r_sel st)
    as [[[]|e1] st1] eqn:Hvote;
    pose proof (apply_vote_result _ _ _ _ _ _ _ Hvote) as [Hst1 _];
    cbn in Hdom.
  - assert (rater_sessions st1 = rater_sessions st) as Hsess
      by (by rewrite Hst1).
    destruct (rater_sessions st1 !! rater_id) as [[session|stored]|] eqn:Hs.
    + rewrite (advance_dict _ _ _ Hs). cbn. split; [done|].
      rewrite <- Hsess. apply dom_insert_lookup_L. by eexists.
    + rewrite (advance_not_a_dict _ _ _ Hs). cbn. by rewrite Hsess.
    + rewrite (advance_no_session _ _ Hs). cbn. by rewrite Hsess.
  - cbn. split; [done|]. by rewrite Hst1.
Qed.

Lemma get_task_dom rater_id st :
  dom (rater_sessions (get_task tasks rater_id st).2)
  = {[rater_id]} ∪ dom (rater_sessions st).
Proof.
  destruct (get_task_cases tasks rater_id st) as [(s & Hs & ->)|[_ ->]].
  - cbn. symmetry. apply subseteq_union_1_L, singleton_subseteq_l.
    apply elem_of_dom. by eexists.
  - cbn. unfold with_new_session.
    destruct (shuffle (range (length tasks)) (rng st)). cbn.
    by rewrite dom_insert_L.
Qed.
End Keys.

(** X8.  No request adds or removes a candidate of the score map: a vote
    on a candidate without a score never creates one.  No request removes
    a rater from the session map, and only [get_task] adds one, the rater
    it is called for; a submission or a status request for a rater without
    a session creates none. *)
Theorem handle_key_sets (tasks : list Task) (int : string → option Z)
    (req : Request) (st : State) :
  dom (aggregate_scores (handle tasks int req st).2) = dom (aggregate_scores st) ∧
  dom (rater_sessions (handle tasks int req st).2)
  = match req with
    | GetTask rater_id => {[rater_id]} ∪ dom (rater_sessions st)
    | _ => dom (rater_sessions st)
    end.
Proof.
  destruct req as [r|r dp lw rw ls rs| |r]; cbn [handle].
  - split; [by rewrite get_task_scores|apply get_task_dom].
  - exact (submit_rating_dom tasks int r dp lw rw ls rs st).
  - done.
  - by rewrite get_status_state.
Qed.

(** ** What [get_task] answers *)

Lemma py_index_wraps {A} (l : list A) (k : Z) :
  (- Z.of_nat (length l) ≤ k < Z.of_nat (length l))%Z →
  ∃ v, l !! Z.to_nat (k `mod` Z.of_nat (length l)) = Some v ∧
       py_index l k = Ok v.
Proof.
  intros Hk. destruct (decide (0 ≤ k)%Z) as [Hpos|Hneg].
  - rewrite Z.mod_small by lia. apply py_index_in_range. lia.
  - assert (k `mod` Z.of_nat (length l) = Z.of_nat (length l) + k)%Z as ->.
    { symmetry. apply (Z.mod_unique _ _ (-1)); lia. }
    destruct (lookup_lt_is_Some_2 l (Z.to_nat (Z.of_nat (length l) + k)))
      as [v Hv]; [lia|].
    exists v. split; [done|]. unfold py_index, list_get.
    rewrite (proj2 (Z.leb_gt _ _)) by lia.
    rewrite (proj2 (Z.leb_le _ _)) by lia. by rewrite Hv.
Qed.

Lemma py_index_below {A} (l : list A) (k : Z) :
  (k < - Z.of_nat (length l))%Z → py_index l k = Raise IndexError.
Proof.
  intros Hk. unfold py_index.
  rewrite (proj2 (Z.leb_gt _ _)) by lia.
  by rewrite (proj2 (Z.leb_gt _ _)) by lia.
Qed.

Lemma length_range n : length (range n) = n.
Proof. unfold range. by rewrite length_fmap, length_seq. Qed.

(** X9.  What [get_task] answers for a rater whose session is stored as
    a dict with an order that is a permutation of all task indices, with
    [n] the number of tasks: the completion page when the position is [n]
    or more; the page of the task at index [order[position]] when the
    position is in [-n, n), a negative position counting from the end of
    the order as Python indexing does; [IndexError] when the position is
    below [-n].  In each case the state is left as it was. *)
Theorem get_task_outcomes (tasks : list Task) (st : State)
    (rater_id : string) (session : RaterSession) :
  rater_sessions st !! rater_id = Some (SessionDict session) →
  order session ≡ₚ range (length tasks) →
  let n := Z.of_nat (length tasks) in
  let position := current_index session in
  ((n ≤ position)%Z →
   get_task tasks rater_id st = (Ok AllTasksCompleted, st)) ∧
  ((- n ≤ position < n)%Z →
   ∃ task_idx task,
     order session !! Z.to_nat (position `mod` n) = Some task_idx ∧
     tasks !! Z.to_nat task_idx = Some task ∧
     get_task tasks rater_id st = (Ok (TaskPage rater_id task), st)) ∧
  ((position < - n)%Z →
   get_task tasks rater_id st = (Raise IndexError, st)).
Proof.
  intros Hs Hperm n position.
  rewrite (get_task_existing tasks rater_id st session Hs).
  assert (length (order session) = length tasks) as Hlen
    by (by rewrite Hperm, length_range).
  unfold task_response. fold position. fold n. split; [|split].
  - intros Hn. by rewrite (proj2 (Z.leb_le _ _) Hn).
  - intros Hin. rewrite (proj2 (Z.leb_gt _ _)) by lia.
    destruct (py_index_wraps (order session) position) as (idx & Hidx & Hget).
    { rewrite Hlen. fold n. lia. }
    rewrite Hlen in Hidx. fold n in Hidx.
    assert (0 ≤ idx < n)%Z as Hrange.
    { apply elem_of_range. rewrite <- Hperm. apply list_elem_of_lookup. eauto. }
    destruct (py_index_in_range tasks idx Hrange) as (task & Htask & Hget').
    exists idx, task. split; [done|]. split; [done|].
    rewrite Hget. cbn. by rewrite Hget'.
  - intros Hlow. rewrite (proj2 (Z.leb_gt _ _)) by lia.
    rewrite py_index_below; [done|]. rewrite Hlen. fold n. lia.
Qed.

(** ** Sessions the server created *)

Section ValidSessions.
Variable tasks : list Task.
Variable int : string → option Z.

(** One request leaves what is stored for a rater without a dict session
    as it is, except [get_task] for that rater, which creates a session. *)
Lemma handle_non_dict_step req st rater_id :
  needs_new_session (rater_sessions st) rater_id = true →
  rater_sessions (handle tasks int req st).2 !! rater_id
  = rater_sessions st !! rater_id ∨
  (req = GetTask rater_id ∧
   rater_sessions (handle tasks int req st).2 !! rater_id
   = Some (SessionDict
             {| order := (shuffle (range (length tasks)) (rng st)).1;
                current_index := 0 |})).
Proof.
  intros Hnew. destruct req as [r|r dp lw rw ls rs| |r]; cbn [handle].
  - destruct (get_task_cases tasks r st) as [(s & _ & ->)|[_ ->]];
      [by left|]. cbn.
    destruct (decide (r = rater_id)) as [->|Hne].
    + right. split; [done|].
      by destruct (with_new_session_lookup tasks rater_id st) as (o & -> & Ho).
    + left. by apply with_new_session_other.
  - left. destruct (submit_rating tasks int r dp lw rw ls rs st)
      as [[resp|ex] st'] eqn:Hsub; cbn.
    + apply submit_rating_accepted
        in Hsub as (l & r' & st1 & s & _ & _ & _ & Hs & _ & ->).
      cbn. rewrite lookup_insert_ne; [done|]. intros ->.
      by rewrite (needs_new_session_dict _ _ _ Hs) in Hnew.
    + apply submit_rating_rejected in Hsub. by rewrite Hsub.
  - by left.
  - left. by rewrite get_status_state.
Qed.

Lemma handle_valid req st :
  sessions_valid tasks st → sessions_valid tasks (handle tasks int req st).2.
Proof.
  intros Hvalid r s' Hs'.
  destruct (needs_new_session (rater_sessions st) r) eqn:Hnew.
  - destruct (handle_non_dict_step req st r Hnew) as [Hsame|[_ Hcreated]].
    + rewrite Hsame in Hs'. unfold needs_new_session in Hnew.
      by rewrite Hs' in Hnew.
    + rewrite Hcreated in Hs'. injection Hs' as <-. cbn.
      split; [apply shuffle_Permutation|done].
  - unfold needs_new_session in Hnew.
    destruct (rater_sessions st !! r) as [[s|]|] eqn:Hs; try done.
    rewrite (handle_session_step tasks int req st r s Hs) in Hs'.
    destruct (Hvalid r s Hs) as [Hperm Hpos]. injection Hs' as <-.
    destruct (accepted_submission tasks int r req st); cbn; [|done].
    split; [done|lia].
Qed.

Lemma serve_valid reqs st :
  sessions_valid tasks st → sessions_valid tasks (serve tasks int reqs st).
Proof.
  revert st. induction reqs as [|req rest IH]; intros st Hvalid; [done|].
  cbn. apply IH. by apply handle_valid.
Qed.

Lemma task_response_valid rater_id session :
  order session ≡ₚ range (length tasks) → (0 ≤ current_index session)%Z →
  ∃ resp, task_response tasks rater_id session = Ok resp.
Proof.
  intros Hperm Hpos. unfold task_response.
  destruct (Z.of_nat (length tasks) <=? current_index session)%Z eqn:Hcmp;
    [eauto|].
  apply Z.leb_gt in Hcmp.
  destruct (py_index_in_range (order session) (current_index session))
    as (idx & Hidx & ->).
  { by rewrite Hperm, length_range. }
  assert (0 ≤ idx < Z.of_nat (length tasks))%Z as Hrange.
  { apply elem_of_range. rewrite <- Hperm. apply list_elem_of_lookup. eauto. }
  destruct (py_index_in_range tasks idx Hrange) as (task & _ & Hget).
  cbn. rewrite Hget. eauto.
Qed.

Lemma get_task_valid rater_id st :
  sessions_valid tasks st →
  ∃ resp, (get_task tasks rater_id st).1 = Ok resp.
Proof.
  intros Hvalid.
  destruct (get_task_cases tasks rater_id st) as [(s & Hs & ->)|[_ ->]]; cbn.
  - destruct (Hvalid rater_id s Hs). by apply task_response_valid.
  - apply task_response_valid; [apply shuffle_Permutation|done].
Qed.

Lemma start_fresh_valid e g : sessions_valid tasks (start e None g).
Proof.
  intros r s.
  change (rater_sessions (start e None g)) with (∅ : gmap string SessionValue).
  by rewrite lookup_empty.
Qed.
End ValidSessions.

(** X10.  When every session stored as a dict has an order that is a
    permutation of all task indices and a position that is not negative,
    this stays so after any requests, and [get_task] then never raises,
    for any rater: it answers with a task page or the completion page.
    A process started without a progress file is in such a state. *)
Theorem get_task_never_raises (tasks : list Task) (int : string → option Z) :
  (∀ st reqs rater_id,
     sessions_valid tasks st →
     sessions_valid tasks (serve tasks int reqs st) ∧
     ∃ resp, (get_task tasks rater_id (serve tasks int reqs st)).1 = Ok resp) ∧
  (∀ e g reqs rater_id,
     ∃ resp,
       (get_task tasks rater_id (serve tasks int reqs (start e None g))).1
       = Ok resp).
Proof.
  split.
  - intros st reqs r Hvalid.
    pose proof (serve_valid tasks int reqs st Hvalid) as Hlater.
    split; [done|]. by apply get_task_valid.
  - intros e g reqs r. apply get_task_valid, serve_valid, start_fresh_valid.
Qed.

(** X11.  For a rater whose session is stored as a dict, after any
    requests the status request reports the position the session had plus
    the number of accepted submissions by the rater since, with the number
    of tasks, and changes nothing; the reported progress is not capped at
    the number of tasks.  Once it has reached the number of tasks,
    [get_task] answers with the completion page.  For a rater without a
    session the status request reports 0 and creates no session. *)
Theorem get_status_reports_progress (tasks : list Task)
    (int : string → option Z) (st : State) (rater_id : string) :
  (∀ session reqs,
     rater_sessions st !! rater_id = Some (SessionDict session) →
     let later := serve tasks int reqs st in
     let progress :=
       (current_index session
        + Z.of_nat (count_accepted tasks int rater_id reqs st))%Z in
     get_status tasks rater_id later
     = (Ok (Status rater_id progress (length tasks)), later) ∧
     ((Z.of_nat (length tasks) ≤ progress)%Z →
      get_task tasks rater_id later = (Ok AllTasksCompleted, later))) ∧
  (rater_sessions st !! rater_id = None →
   get_status tasks rater_id st = (Ok (Status rater_id 0 (length tasks)), st)).
Proof.
  split.
  - intros session reqs Hs later progress.
    pose proof (serve_advances_session tasks int reqs st rater_id session Hs)
      as Hlater.
    fold later in Hlater. fold progress in Hlater. split.
    + unfold get_status, mbind, M_bind, get_state. by rewrite Hlater.
    + intros Hdone. rewrite (get_task_existing tasks rater_id later _ Hlater).
      unfold task_response. cbn. by rewrite (proj2 (Z.leb_le _ _) Hdone).
  - intros Hnone. unfold get_status, mbind, M_bind, get_state.
    by rewrite Hnone.
Qed.

(** ** A rater working through the tasks *)

Lemma omap_lookup_seq {A} (pre l : list A) :
  omap (λ i, (pre ++ l) !! i) (seq (length pre) (length l)) = l.
Proof.
  revert pre. induction l as [|x l IH]; intros pre; [done|].
  cbn [length seq].
  change (omap (λ i, (pre ++ x :: l) !! i)
            (length pre :: seq (S (length pre)) (length l)))
    with (match (pre ++ x :: l) !! length pre with
          | Some y => y :: omap (λ i, (pre ++ x :: l) !! i)
                             (seq (S (length pre)) (length l))
          | None => omap (λ i, (pre ++ x :: l) !! i)
                      (seq (S (length pre)) (length l))
          end).
  rewrite list_lookup_middle by done. f_equal.
  specialize (IH (pre ++ [x])).
  rewrite <- app_assoc, length_app in IH. cbn [length app] in IH.
  by rewrite Nat.add_1_r in IH.
Qed.

Lemma omap_lookup_range {A} (l : list A) :
  omap (λ idx : Z, l !! Z.to_nat idx) (range (length l)) = l.
Proof.
  unfold range.
  assert (∀ is_ : list nat,
            omap (λ idx : Z, l !! Z.to_nat idx) (Z.of_nat <$> is_)
            = omap (λ i, l !! i) is_) as Hmap.
  { induction is_ as [|i is_ IH]; [done|].
    cbn. rewrite Nat2Z.id, IH. done. }
  rewrite Hmap. exact (omap_lookup_seq [] l).
Qed.

Lemma Forall2_omap {A B} (f : A → option B) (l : list A) (k : list B) :
  Forall2 (λ x y, f x = Some y) l k → omap f l = k.
Proof. induction 1 as [|x y l k Hxy _ IH]; [done|]. cbn. by rewrite Hxy, IH. Qed.

Section Rating.
Variable tasks : list Task.
Variable int : string → option Z.

Lemma tasks_scored_after st scores' lw rw dl dr sessions :
  tasks_scored tasks st →
  (∀ c, scores' !! c = score_after lw rw dl dr c <$> aggregate_scores st !! c) →
  tasks_scored tasks
    (persisted (with_sessions (with_scores st scores') sessions)).
Proof.
  intros Hsc Hlookup t Ht. destruct (Hsc t Ht) as [[vl Hl] [vr Hr]]. cbn.
  rewrite !Hlookup, Hl, Hr. split; by eexists.
Qed.

(** From position [p], one page and one form for each pair of
    selections: the tasks shown are those at the next indices of the
    order, and the position has moved by their number. *)
Lemma rate_from choices st rater_id session (p : nat) :
  rater_sessions st !! rater_id = Some (SessionDict session) →
  order session ≡ₚ range (length tasks) →
  current_index session = Z.of_nat p →
  p + length choices ≤ length tasks →
  tasks_scored tasks st →
  Forall (λ c, is_Some (int c.1) ∧ is_Some (int c.2)) choices →
  ∃ shown st',
    rate tasks int rater_id choices st = (shown, st') ∧
    Forall2 (λ idx t, tasks !! Z.to_nat idx = Some t)
      (take (length choices) (drop p (order session))) shown ∧
    rater_sessions st' !! rater_id
    = Some (SessionDict
              {| order := order session;
                 current_index := Z.of_nat (p + length choices) |}) ∧
    tasks_scored tasks st'.
Proof.
  revert st session p.
  induction choices as [|[ls rs] rest IH];
    intros st session p Hs Hperm Hpos Hlen Hsc Hparse.
  - exists [], st. cbn. rewrite Nat.add_0_r, <- Hpos.
    split; [done|]. split; [constructor|]. split; [by destruct session|done].
  - cbn [length] in Hlen. apply Forall_cons in Hparse as [[[l Hl] [r Hr]] Hrest].
    cbn in Hl, Hr.
    assert (length (order session) = length tasks) as Horder
      by (by rewrite Hperm, length_range).
    destruct (py_index_in_range (order session) (current_index session))
      as (idx & Hidx & Hget); [lia|].
    rewrite Hpos, Nat2Z.id in Hidx.
    assert (0 ≤ idx < Z.of_nat (length tasks))%Z as Hrange.
    { apply elem_of_range. rewrite <- Hperm. apply list_elem_of_lookup. eauto. }
    destruct (py_index_in_range tasks idx Hrange) as (task & Htask & Hget').
    assert (get_task tasks rater_id st = (Ok (TaskPage rater_id task), st))
      as Hpage.
    { rewrite (get_task_existing tasks rater_id st session Hs).
      unfold task_response. rewrite (proj2 (Z.leb_gt _ _)) by lia.
      rewrite Hget. cbn. by rewrite Hget'. }
    assert (task ∈ tasks) as Hin by (apply list_elem_of_lookup; eauto).
    destruct (submit_rating_accepts tasks int rater_id (datapoint_id task)
                (left_weight task) (right_weight task) ls rs st l r session
                Hl Hr (λ _, Hsc task Hin) Hs) as (scores' & Hsub & Hlookup).
    set (st2 := persisted
                  (with_sessions (with_scores st scores')
                     (<[rater_id := SessionDict (advanced session)]>
                        (rater_sessions st)))) in *.
    destruct (IH st2 (advanced session) (S p)) as (shown & st' & Hrun & Hshown & Hs' & Hsc').
    + cbn. apply lookup_insert_eq.
    + done.
    + cbn. lia.
    + lia.
    + by eapply tasks_scored_after.
    + done.
    + exists (task :: shown), st'. split; [|split; [|split; [|done]]].
      * cbn [rate]. rewrite Hpage. cbn [handle form_request].
        rewrite Hsub. cbn [snd]. by rewrite Hrun.
      * cbn [length take]. rewrite (drop_S _ _ _ Hidx). cbn [take].
        constructor; [done|exact Hshown].
      * cbn [length]. rewrite Hs'. cbn. do 3 f_equal. lia.
Qed.
End Rating.

(** X12.  A rater with a session at position 0 whose order is a
    permutation of all task indices, in a state where both candidates of
    every task have a score, fetches a page and posts its form with
    selections that parse, as many times as there are tasks.  Every
    submission is accepted; the tasks shown are the tasks at the indices
    of the order, one after the other, so every task is shown exactly
    once; then the status request reports the number of tasks as progress
    and [get_task] answers with the completion page. *)
Theorem rater_sees_every_task_once (tasks : list Task)
    (int : string → option Z) (st : State) (rater_id : string)
    (session : RaterSession) (choices : list (string * string)) :
  rater_sessions st !! rater_id = Some (SessionDict session) →
  order session ≡ₚ range (length tasks) →
  current_index session = 0%Z →
  tasks_scored tasks st →
  length choices = length tasks →
  Forall (λ c, is_Some (int c.1) ∧ is_Some (int c.2)) choices →
  ∃ shown st',
    rate tasks int rater_id choices st = (shown, st') ∧
    Forall2 (λ idx t, tasks !! Z.to_nat idx = Some t) (order session) shown ∧
    shown ≡ₚ tasks ∧
    get_status tasks rater_id st'
    = (Ok (Status rater_id (Z.of_nat (length tasks)) (length tasks)), st') ∧
    get_task tasks rater_id st' = (Ok AllTasksCompleted, st').
Proof.
  intros Hs Hperm Hpos Hsc Hlen Hparse.
  destruct (rate_from tasks int choices st rater_id session 0)
    as (shown & st' & Hrun & Hshown & Hs' & _); try done.
  { cbn. lia. }
  assert (length (order session) = length tasks) as Horder
    by (by rewrite Hperm, length_range).
  rewrite drop_0, Hlen, <- Horder, firstn_all in Hshown.
  exists shown, st'. split; [done|]. split; [done|]. split; [|split].
  - rewrite <- (Forall2_omap _ _ _ Hshown), Hperm. by rewrite omap_lookup_range.
  - unfold get_status, mbind, M_bind, get_state. rewrite Hs'. cbn.
    by rewrite Hlen.
  - rewrite (get_task_existing tasks rater_id st' _ Hs').
    unfold task_response. cbn. rewrite Hlen.
    by rewrite Z.leb_refl.
Qed.

(** ** Repeated and rejected submissions *)

Section Resubmission.
Variable tasks : list Task.
Variable int : string → option Z.

(** What an accepted submission found in the state. *)
Lemma accepted_known rater_id datapoint_id left_weight right_weight
    left_selected right_selected st resp st' :
  submit_rating tasks int rater_id datapoint_id left_weight right_weight
    left_selected right_selected st = (Ok resp, st') →
  ∃ l_sel r_sel session,
    int left_selected = Some l_sel ∧ int right_selected = Some r_sel ∧
    rater_sessions st !! rater_id = Some (SessionDict session) ∧
    (recognised l_sel r_sel →
     is_Some (aggregate_scores st !! left_weight) ∧
     is_Some (aggregate_scores st !! right_weight)).
Proof.
  intros Hsub.
  apply submit_rating_accepted
    in Hsub as (l & r & st1 & s & Hl & Hr & Hvote & Hs & _ & _).
  exists l, r, s. split; [done|]. split; [done|]. split; [done|].
  intros Hin. rewrite (apply_vote_table _ _ _ _ Hin) in Hvote.
  pose proof (add_scores_outcome left_weight right_weight
                (vote_deltas l r).1 (vote_deltas l r).2 st) as Hout.
  destruct (aggregate_scores st !! left_weight) as [vl|].
  - destruct (aggregate_scores st !! right_weight) as [vr|].
    + split; by eexists.
    + rewrite Hvote in Hout. done.
  - rewrite Hvote in Hout. done.
Qed.

Lemma score_after_twice left_weight right_weight dl dr c
    (o : option Z) :
  score_after left_weight right_weight dl dr c
    <$> (score_after left_weight right_weight dl dr c <$> o)
  = score_after left_weight right_weight (2 * dl) (2 * dr) c <$> o.
Proof.
  destruct o as [v|]; [|done]. cbn. f_equal. unfold score_after.
  repeat case_decide; lia.
Qed.
End Resubmission.

(** X13.  No submission is recognised as a repetition.  When a submission
    is accepted, the same submission posted again is accepted again: the
    deltas of the vote are given a second time, so every score has moved
    by twice its delta, and the position of the rater has moved by two. *)
Theorem resubmission_counts_twice (tasks : list Task)
    (int : string → option Z) (st st1 : State) (resp : Response)
    (rater_id datapoint_id left_weight right_weight
     left_selected right_selected : string) :
  submit_rating tasks int rater_id datapoint_id left_weight right_weight
    left_selected right_selected st = (Ok resp, st1) →
  ∃ resp2 st2 l_sel r_sel session,
    submit_rating tasks int rater_id datapoint_id left_weight right_weight
      left_selected right_selected st1 = (Ok resp2, st2) ∧
    int left_selected = Some l_sel ∧ int right_selected = Some r_sel ∧
    rater_sessions st !! rater_id = Some (SessionDict session) ∧
    rater_sessions st2 !! rater_id
    = Some (SessionDict {| order := order session;
                           current_index := current_index session + 2 |}) ∧
    ∀ c, aggregate_scores st2 !! c
         = score_after left_weight right_weight
             (2 * (vote_deltas l_sel r_sel).1) (2 * (vote_deltas l_sel r_sel).2) c
           <$> aggregate_scores st !! c.
Proof.
  intros Hsub.
  destruct (accepted_known tasks int _ _ _ _ _ _ _ _ _ Hsub)
    as (l & r & s & Hl & Hr & Hs & Hknown).
  destruct (submit_rating_accepts tasks int rater_id datapoint_id left_weight
              right_weight left_selected right_selected st l r s
              Hl Hr Hknown Hs) as (scores1 & Hrun1 & Hsc1).
  rewrite Hsub in Hrun1. injection Hrun1 as -> ->.
  destruct (submit_rating_accepts tasks int rater_id datapoint_id left_weight
              right_weight left_selected right_selected
              (persisted
                 (with_sessions (with_scores st scores1)
                    (<[rater_id := SessionDict (advanced s)]>
                       (rater_sessions st))))
              l r (advanced s) Hl Hr) as (scores2 & Hrun2 & Hsc2).
  - intros Hin. destruct (Hknown Hin) as [[vl Hvl] [vr Hvr]]. cbn.
    rewrite !Hsc1, Hvl, Hvr. split; by eexists.
  - cbn. apply lookup_insert_eq.
  - eexists _, _, l, r, s. split; [exact Hrun2|].
    split; [done|]. split; [done|]. split; [done|]. split.
    + cbn. rewrite lookup_insert_eq. unfold advanced. cbn.
      do 3 f_equal. lia.
    + intros c. cbn. rewrite Hsc2. cbn. rewrite Hsc1.
      apply score_after_twice.
Qed.

(** X14.  A rejected submission writes nothing to the progress file and
    changes no session: when the file and the memory were in sync, loading
    the file after it gives the sessions and the scores of before the
    request, without what the rejected request left in the scores.  The
    next accepted submission writes the scores in memory as they are, so
    from then on the file holds what the rejected request left. *)
Theorem rejected_submission_not_persisted (e : ExperimentDefinition)
    (tasks : list Task) (int : string → option Z) (st : State) :
  (∀ rater_id datapoint_id left_weight right_weight
     left_selected right_selected ex st',
     load_progress e (progress_store st)
     = (rater_sessions st, aggregate_scores st) →
     submit_rating tasks int rater_id datapoint_id left_weight right_weight
       left_selected right_selected st = (Raise ex, st') →
     rater_sessions st' = rater_sessions st ∧
     load_progress e (progress_store st')
     = (rater_sessions st, aggregate_scores st)) ∧
  (∀ rater_id datapoint_id left_weight right_weight
     left_selected right_selected resp st',
     covers_weights e (aggregate_scores st) →
     submit_rating tasks int rater_id datapoint_id left_weight right_weight
       left_selected right_selected st = (Ok resp, st') →
     load_progress e (progress_store st')
     = (rater_sessions st', aggregate_scores st')).
Proof.
  split.
  - intros r dp lw rw ls rs ex st' Hsync Hsub.
    apply submit_rating_rejected in Hsub. rewrite Hsub. done.
  - intros r dp lw rw ls rs resp st' Hcov Hsub.
    apply submit_rating_accepted
      in Hsub as (l & r' & st1 & s & _ & _ & Hvote & _ & _ & ->).
    apply (persisted_in_sync e). cbn. intros w Hw.
    pose proof (apply_vote_keeps lw rw l r' st w (Hcov w Hw)) as Hkeep.
    by rewrite Hvote in Hkeep.
Qed.

(** ** The built task list and the scores *)

Lemma built_task_weights (e : ExperimentDefinition) (ts : list Task) t :
  build_tasks e = Ok ts → t ∈ ts →
  left_weight t ∈ weights e ∧ right_weight t ∈ weights e.
Proof.
  intros Hbuild Hin.
  pose proof (append_inputs_result e 0 (inputs e) []) as Hres.
  fold (build_tasks e) in Hres. rewrite Hbuild in Hres.
  destruct (append_inputs_ok e 0 (inputs e) [] Hres)
    as (blocks & Hrun & Hlen & Hblocks).
  fold (build_tasks e) in Hrun. rewrite Hbuild in Hrun.
  injection Hrun as ->. cbn in Hin.
  apply list_elem_of_In, in_concat in Hin as (block & Hblock & Ht).
  apply list_elem_of_In, list_elem_of_lookup in Hblock as [i Hi].
  apply list_elem_of_In, list_elem_of_lookup in Ht as [j Hj].
  destruct (lookup_lt_is_Some_2 (inputs e) i) as [inp Hinp].
  { rewrite <- Hlen. by apply lookup_lt_Some in Hi. }
  destruct (Hblocks i inp Hinp) as (block' & Hi' & Hfor).
  assert (block' = block) as -> by congruence.
  destruct (Forall2_lookup_r _ _ _ _ _ Hfor Hj) as ([w1 w2] & Hp & Hmk).
  destruct (make_task_fields e _ _ _ _ _ Hmk) as (_ & _ & -> & -> & _).
  apply combinations2_fst_snd. apply list_elem_of_lookup. eauto.
Qed.

(** X15.  In every state of a process that runs with the task list built
    from its experiment definition, both candidates of every task have a
    score: the scoring step never raises [KeyError] for the pair of a
    task. *)
Theorem built_tasks_always_scored (e : ExperimentDefinition)
    (tasks : list Task) (int : string → option Z) (st : State) :
  build_tasks e = Ok tasks →
  reachable e tasks int st →
  tasks_scored tasks st ∧
  ∀ task l_sel r_sel, task ∈ tasks →
    ∃ scores',
      apply_vote (left_weight task) (right_weight task) l_sel r_sel st
      = (Ok tt, with_scores st scores').
Proof.
  intros Hbuild Hreach.
  pose proof (reachable_covers e tasks int st Hreach) as Hcov.
  assert (tasks_scored tasks st) as Hsc.
  { intros t Ht. destruct (built_task_weights e tasks t Hbuild Ht) as [Hl Hr].
    split; by apply Hcov. }
  split; [exact Hsc|]. intros task l r Ht.
  destruct (apply_vote_known (left_weight task) (right_weight task) l r st
              (λ _, Hsc task Ht)) as (scores' & Hrun & _).
  eauto.
Qed.

(** ** The further properties on the example experiment *)

Lemma example_session :
  ∃ o, rater_sessions Example.st1 !! "alice"%string
       = Some (SessionDict {| order := o; current_index := 0 |}) ∧
       o ≡ₚ range (length Example.tasks).
Proof.
  unfold Example.st1.
  rewrite (get_task_new Example.tasks "alice" Example.st0 eq_refl). cbn [snd].
  destruct (with_new_session_lookup Example.tasks "alice" Example.st0)
    as (o & -> & Ho).
  eexists. split; [exact Ho|apply shuffle_Permutation].
Qed.

Lemma example_tasks_scored : tasks_scored Example.tasks Example.st1.
Proof.
  intros t Ht. vm_compute in Ht.
  repeat (apply elem_of_cons in Ht as [->|Ht]);
    [split; by eexists ..|].
  by apply elem_of_nil in Ht.
Qed.

Lemma build_tasks_succeeds_iff_witness :
  outputs_complete Example.experiment_data.
Proof.
  apply (proj1 (build_tasks_succeeds_iff Example.experiment_data
                  ltac:(cbn; lia))).
  eexists. vm_compute. reflexivity.
Defined.

Lemma build_tasks_empty_witness :
  build_tasks Example.single_candidate = Ok [].
Proof.
  apply build_tasks_empty. left. cbn. lia.
Defined.

Lemma load_progress_lookup_witness :
  (load_progress Example.experiment_data (Some Example.legacy_file)).2
  = default_aggregate_scores Example.experiment_data.
Proof.
  apply (load_progress_lookup Example.experiment_data
           (Some Example.legacy_file)).
  reflexivity.
Defined.

Lemma sessions_always_persisted_witness :
  let st := (handle Example.tasks Example.int Example.alice_votes_right
               Example.st1).2 in
  (load_progress Example.experiment_data (progress_store st)).1
  = rater_sessions st.
Proof.
  intros st.
  exact (proj1 (sessions_always_persisted Example.experiment_data
                  Example.tasks Example.int st example_reachable)).
Defined.

Lemma accepted_requests_keep_in_sync_witness :
  ∃ st,
    serve_accepted Example.tasks Example.int
      [GetTask "alice"; Example.alice_votes_right; GetStatus "alice"]
      Example.st0 = Some st ∧
    load_progress Example.experiment_data (progress_store st)
    = (rater_sessions st, aggregate_scores st).
Proof.
  destruct (serve_accepted Example.tasks Example.int
              [GetTask "alice"; Example.alice_votes_right; GetStatus "alice"]
              Example.st0) as [st|] eqn:Hrun.
  - exists st. split; [reflexivity|].
    exact (proj1 (accepted_requests_keep_in_sync Example.experiment_data
                    Example.tasks Example.int None Example.g0 _ st Hrun)).
  - vm_compute in Hrun. discriminate Hrun.
Defined.

Lemma submit_rating_accepted_iff_witness :
  ∃ resp st',
    submit_rating Example.tasks Example.int "alice" "no such datapoint"
      "w3" "w1" "1" "1" Example.st1 = (Ok resp, st').
Proof.
  destruct example_session as (o & Hs & _).
  apply (proj1 (submit_rating_accepted_iff Example.tasks Example.int
                  Example.st1 "alice" "no such datapoint" "w3" "w1" "1" "1")).
  exists 1%Z, 1%Z. eexists. split; [reflexivity|]. split; [reflexivity|].
  split; [exact Hs|]. intros _. split; by eexists.
Defined.

Lemma submit_rating_unknown_candidate_witness :
  submit_rating Example.tasks Example.int "alice" "dp1" "w1" "w9" "1" "0"
    Example.st1
  = (Raise (KeyError "w9"),
     with_scores Example.st1
       (<["w1"%string := 1%Z]> (aggregate_scores Example.st1))).
Proof.
  destruct (submit_rating_unknown_candidate Example.tasks Example.int
              Example.st1 "alice" "dp1" "w1" "w9" "1" "0" 1 0)
    as [_ Hright].
  - reflexivity.
  - reflexivity.
  - split; lia.
  - destruct (Hright 0%Z) as [Hrun _]; [reflexivity|reflexivity|].
    exact Hrun.
Defined.

Lemma get_task_outcomes_witness :
  ∃ task,
    get_task Example.tasks "alice" Example.st1
    = (Ok (TaskPage "alice" task), Example.st1).
Proof.
  destruct example_session as (o & Hs & Hperm).
  destruct (get_task_outcomes Example.tasks Example.st1 "alice" _ Hs Hperm)
    as (_ & Hin & _).
  destruct Hin as (idx & task & _ & _ & Hrun).
  - vm_compute. split; [discriminate|reflexivity].
  - exists task. exact Hrun.
Defined.

Lemma get_task_never_raises_witness :
  ∃ resp,
    (get_task Example.tasks "bob"
       (serve Example.tasks Example.int
          [GetTask "alice"; Example.alice_votes_right; Example.bob_votes_left]
          Example.st0)).1 = Ok resp.
Proof.
  destruct (get_task_never_raises Example.tasks Example.int) as [Hvalid _].
  destruct (Hvalid Example.st0
              [GetTask "alice"; Example.alice_votes_right;
               Example.bob_votes_left] "bob"%string) as [_ Hresp].
  - apply (start_fresh_valid Example.tasks Example.experiment_data Example.g0).
  - exact Hresp.
Defined.

Lemma get_status_reports_progress_witness :
  (get_status Example.tasks "alice"
     (serve Example.tasks Example.int
        [Example.alice_votes_right; Example.bob_votes_left;
         Example.alice_votes_both]
        Example.st1)).1
  = Ok (Status "alice" 2 6).
Proof.
  destruct example_session as (o & Hs & _).
  destruct (get_status_reports_progress Example.tasks Example.int Example.st1
              "alice") as [Hdict _].
  destruct (Hdict _ [Example.alice_votes_right; Example.bob_votes_left;
                     Example.alice_votes_both] Hs) as [Hstatus _].
  rewrite Hstatus. reflexivity.
Defined.

Lemma rater_sees_every_task_once_witness :
  ∃ shown st',
    rate Example.tasks Example.int "alice" Example.six_choices Example.st1
    = (shown, st') ∧
    shown ≡ₚ Example.tasks ∧
    get_task Example.tasks "alice" st' = (Ok AllTasksCompleted, st').
Proof.
  destruct example_session as (o & Hs & Hperm).
  destruct (rater_sees_every_task_once Example.tasks Example.int Example.st1
              "alice" _ Example.six_choices Hs Hperm)
    as (shown & st' & Hrun & _ & Hall & _ & Hdone).
  - reflexivity.
  - exact example_tasks_scored.
  - reflexivity.
  - repeat (apply Forall_cons; split;
            [split; eexists; vm_compute; reflexivity|]).
    apply Forall_nil. exact I.
  - exists shown, st'.
    split; [exact Hrun|]. split; [exact Hall|exact Hdone].
Defined.

Lemma resubmission_counts_twice_witness :
  ∃ st2,
    (submit_rating Example.tasks Example.int "alice" "dp1" "w1" "w2" "0" "1"
       (submit_rating Example.tasks Example.int "alice" "dp1" "w1" "w2" "0" "1"
          Example.st1).2).2 = st2 ∧
    aggregate_scores st2 !! "w2"%string = Some 2%Z.
Proof.
  destruct (submit_rating Example.tasks Example.int
              "alice" "dp1" "w1" "w2" "0" "1" Example.st1)
    as [[resp|ex] st1] eqn:Hsub.
  - destruct (resubmission_counts_twice Example.tasks Example.int Example.st1
                st1 resp "alice" "dp1" "w1" "w2" "0" "1" Hsub)
      as (resp2 & st2 & l & r & s & Hrun & Hl & Hr & _ & _ & Hscores).
    exists st2. cbn [snd]. rewrite Hrun. split; [reflexivity|].
    rewrite Hscores. injection Hl as <-. injection Hr as <-. reflexivity.
  - vm_compute in Hsub. discriminate Hsub.
Defined.

Lemma rejected_submission_not_persisted_witness :
  let st' := (submit_rating Example.tasks Example.int
                "ghost" "dp1" "w1" "w2" "1" "0" Example.st0).2 in
  load_progress Example.experiment_data (progress_store st')
  = (rater_sessions Example.st0, aggregate_scores Example.st0).
Proof.
  intros st'. subst st'.
  destruct (submit_rating Example.tasks Example.int
              "ghost" "dp1" "w1" "w2" "1" "0" Example.st0)
    as [[resp|ex] st'] eqn:Hsub.
  - vm_compute in Hsub. discriminate Hsub.
  - destruct (rejected_submission_not_persisted Example.experiment_data
                Example.tasks Example.int Example.st0) as [Hrejected _].
    exact (proj2 (Hrejected _ _ _ _ _ _ ex st'
                    (start_in_sync Example.experiment_data None Example.g0)
                    Hsub)).
Defined.

Lemma built_tasks_always_scored_witness :
  tasks_scored Example.tasks
    (handle Example.tasks Example.int Example.alice_votes_right Example.st1).2.
Proof.
  refine (proj1 (built_tasks_always_scored Example.experiment_data
                   Example.tasks Example.int _ _ example_reachable)).
  vm_compute. reflexivity.
Defined.
